(** * Noughts and crosses: the game state of [tictactoe.py]

    A shallow embedding of the class [State] (moves, score, turn, winner,
    players, tokens) and of its methods [reset], [set_move], [finished],
    [compile_board] and [move_replay], followed by the properties of the
    game-state machine.

    - Python's [int] is [Z]; a player name is a [string].
    - [self.moves] is an [OrderedDict]: an association list in insertion
      order, with the dictionary operations written out.
    - [self.score] and [self.tokens] are plain dictionaries keyed by player
      name: [gmap string _].
    - A method reads and mutates [self] and may raise: a computation is a
      function from the state to an outcome and the state it leaves behind
      (what was mutated before a [raise] stays mutated).
    - [random.choice(self.players)] takes its pick as an argument. *)

From Stdlib Require Import ZArith.
From stdpp Require Import gmap strings list fin_maps.

Local Open Scope string_scope.
Local Open Scope list_scope.
Local Open Scope Z_scope.

(** ** Exceptions and outcomes *)

Inductive exn : Type :=
  | IllegalMoveException
  | DuplicateMoveException
  | KeyError
  | StopIteration.

Inductive outcome (A : Type) : Type :=
  | Return (a : A)
  | Raise (e : exn).

Arguments Return {A} a.
Arguments Raise {A} e.

(** ** Python helpers *)

(** Truth value of a string: the empty string is false. *)
Definition truthy (x : string) : bool := negb (String.eqb x "").

(** Truth value of [None] or a string. *)
Definition truthy_opt (x : option string) : bool :=
  match x with
  | None => false
  | Some w => truthy w
  end.

(** Truth value of a list: the empty list is false. *)
Definition truthy_list {A} (l : list A) : bool :=
  match l with
  | [] => false
  | _ :: _ => true
  end.

(** [x in range(lo, hi)] for an integer [x]. *)
Definition in_range (lo hi x : Z) : bool := (lo <=? x) && (x <? hi).

(** [range(lo, lo + n)] as a list. *)
Fixpoint range_from (lo : Z) (n : nat) : list Z :=
  match n with
  | O => []
  | S n' => lo :: range_from (lo + 1) n'
  end.

(** ** [OrderedDict] from cell index to player name *)

Module OrderedDict.

Definition t : Type := list (Z * string).

Definition empty : t := [].

Definition keys (d : t) : list Z := d.*1.

(** The value stored under [k], if any. *)
Fixpoint find (d : t) (k : Z) : option string :=
  match d with
  | [] => None
  | (k', v) :: rest => if k =? k' then Some v else find rest k
  end.

(** [k in d] *)
Definition contains (d : t) (k : Z) : bool :=
  match find d k with
  | Some _ => true
  | None => false
  end.

(** [d.get(k, dflt)] *)
Definition get (d : t) (k : Z) (dflt : string) : string :=
  match find d k with
  | Some v => v
  | None => dflt
  end.

(** [d[k]] *)
Definition getitem (d : t) (k : Z) : outcome string :=
  match find d k with
  | Some v => Return v
  | None => Raise KeyError
  end.

(** [d[k] = v]: an existing key keeps its place, a new key goes last. *)
Fixpoint setitem (d : t) (k : Z) (v : string) : t :=
  match d with
  | [] => [(k, v)]
  | (k', v') :: rest =>
      if k =? k' then (k', v) :: rest else (k', v') :: setitem rest k v
  end.

(** [next(reversed(d))]: the key inserted last. *)
Definition last_key (d : t) : outcome Z :=
  match last d with
  | Some (k, _) => Return k
  | None => Raise StopIteration
  end.

End OrderedDict.

(** ** The state *)

Definition board : Type := list (list string).

Record State : Type := mkState {
  moves : OrderedDict.t;
  score : gmap string Z;
  turn : string;
  winner : option string;
  players : string * string;
  tokens : gmap string string
}.

Definition with_moves (m : OrderedDict.t) (s : State) : State :=
  mkState m (score s) (turn s) (winner s) (players s) (tokens s).

Definition with_score (sc : gmap string Z) (s : State) : State :=
  mkState (moves s) sc (turn s) (winner s) (players s) (tokens s).

Definition with_turn (t : string) (s : State) : State :=
  mkState (moves s) (score s) t (winner s) (players s) (tokens s).

Definition with_winner (w : option string) (s : State) : State :=
  mkState (moves s) (score s) (turn s) w (players s) (tokens s).

(** ** Methods as state-passing computations *)

Definition M (A : Type) : Type := State -> outcome A * State.

Definition ret {A} (a : A) : M A := fun s => (Return a, s).

Definition raise {A} (e : exn) : M A := fun s => (Raise e, s).

Definition bind {A B} (m : M A) (k : A -> M B) : M B :=
  fun s =>
    match m s with
    | (Return a, s') => k a s'
    | (Raise e, s') => (Raise e, s')
    end.

Definition read : M State := fun s => (Return s, s).

Definition update (f : State -> State) : M unit := fun s => (Return tt, f s).

(** An expression that may raise, evaluated without touching the state. *)
Definition lift {A} (o : outcome A) : M A := fun s => (o, s).

Notation "x <- m ;; k" := (bind m (fun x => k))
  (at level 62, m at next level, right associativity).
Notation "m ;;; k" := (bind m (fun _ => k))
  (at level 62, right associativity).

(** [for x in xs: body(x)] *)
Fixpoint for_each {A} (xs : list A) (body : A -> M unit) : M unit :=
  match xs with
  | [] => ret tt
  | x :: rest => body x ;;; for_each rest body
  end.

(** [random.choice(self.players)], the pick given. *)
Definition choice (pick : bool) (ps : string * string) : string :=
  if pick then ps.2 else ps.1.

(** [State.reset] *)
Definition reset (pick : bool) : M unit :=
  update (with_moves OrderedDict.empty) ;;;
  s <- read ;;
  update (with_turn (choice pick (players s))) ;;;
  update (with_winner None).

(** [State.__init__] *)
Definition init (player1 player2 : string) (pick : bool) : State :=
  let s := mkState OrderedDict.empty
             (<[player2 := 0]> (<[player1 := 0]> ∅))
             ""
             None
             (player1, player2)
             (<[player2 := "O"]> (<[player1 := "X"]> (<[" " := " "]> ∅))) in
  (reset pick s).2.

(** [State.set_move] *)
Definition set_move (position : Z) : M unit :=
  s <- read ;;
  if negb (in_range 1 10 position) then raise IllegalMoveException
  else if OrderedDict.contains (moves s) position then
    raise DuplicateMoveException
  else
    update (with_moves (OrderedDict.setitem (moves s) position (turn s))) ;;;
    s <- read ;;
    if String.eqb (turn s) (players s).1
    then update (with_turn (players s).2)
    else update (with_turn (players s).1).

Definition win_lines : list (Z * Z * Z) :=
  [ (1, 2, 3); (4, 5, 6); (7, 8, 9);
    (1, 4, 7); (2, 5, 8); (3, 6, 9);
    (1, 5, 9); (7, 5, 3) ].

(** The test of the [if] inside the loop of [finished]. *)
Definition line_won (m : OrderedDict.t) (win_line : Z * Z * Z) : bool :=
  let '(a, b, c) := win_line in
  truthy (OrderedDict.get m a "") &&
  (String.eqb (OrderedDict.get m a "") (OrderedDict.get m b "") &&
   String.eqb (OrderedDict.get m b "") (OrderedDict.get m c "")).

(** [self.score[self.winner] += 1] for a winner [w]. *)
Definition bump_score (w : string) : M unit :=
  s <- read ;;
  match score s !! w with
  | Some n => update (with_score (<[w := n + 1]> (score s)))
  | None => raise KeyError
  end.

(** The body of the loop of [finished]. *)
Definition check_line (win_line : Z * Z * Z) : M unit :=
  s <- read ;;
  if line_won (moves s) win_line then
    k <- lift (OrderedDict.last_key (moves s)) ;;
    w <- lift (OrderedDict.getitem (moves s) k) ;;
    update (with_winner (Some w)) ;;;
    bump_score w
  else ret tt.

(** [State.finished] *)
Definition finished : M bool :=
  for_each win_lines check_line ;;;
  s <- read ;;
  if truthy_opt (winner s) || (Z.of_nat (length (moves s)) =? 9)
  then ret true
  else ret false.

(** [State._set_winner] *)
Definition _set_winner (w : string) : M unit :=
  bump_score w ;;;
  update (with_winner (Some w)).

(** The loop of [compile_board]: the rows finished so far and the row being
    filled. *)
Fixpoint compile_loop (tk : gmap string string) (m : OrderedDict.t)
    (itrs : list Z) (bd : board) (current_line : list string)
    : outcome (board * list string) :=
  match itrs with
  | [] => Return (bd, current_line)
  | itr :: rest =>
      match tk !! OrderedDict.get m itr " " with
      | None => Raise KeyError
      | Some tok =>
          let current_line := current_line ++ [tok] in
          if (itr mod 3 =? 0) && truthy_list current_line
          then compile_loop tk m rest (bd ++ [current_line]) []
          else compile_loop tk m rest bd current_line
      end
  end.

(** [if not moves: moves = self.moves]; [None] is the omitted argument, and
    an empty dictionary is as false as [None]. *)
Definition shown_moves (s : State) (arg : option OrderedDict.t)
    : OrderedDict.t :=
  match arg with
  | None => moves s
  | Some m => if truthy_list m then m else moves s
  end.

(** [State.compile_board] *)
Definition compile_board (s : State) (arg : option OrderedDict.t)
    : outcome board :=
  let m := shown_moves s arg in
  match compile_loop (tokens s) m (range_from 1 9) [] [] with
  | Return (bd, current_line) => Return (bd ++ [current_line])
  | Raise e => Raise e
  end.

(** What a generator does when it is run to its end: the values it yields, in
    order, and the exception that stopped it, if one did. *)
Definition yielded (A : Type) : Type := list A * option exn.

(** The loop of [move_replay] over the keys still to visit. *)
Fixpoint replay_loop (s : State) (current_moves : OrderedDict.t)
    (todo : list Z) : yielded board :=
  match todo with
  | [] => ([], None)
  | move :: rest =>
      match OrderedDict.getitem (moves s) move with
      | Raise e => ([], Some e)
      | Return v =>
          let current_moves := OrderedDict.setitem current_moves move v in
          match compile_board s (Some current_moves) with
          | Raise e => ([], Some e)
          | Return b =>
              let '(bs, e) := replay_loop s current_moves rest in
              (b :: bs, e)
          end
      end
  end.

(** [State.move_replay], run to its end. *)
Definition move_replay (s : State) : yielded board :=
  replay_loop s OrderedDict.empty (OrderedDict.keys (moves s)).

(** [State.player1_score] and [State.player2_score] *)
Definition player1_score (s : State) : outcome Z :=
  match score s !! (players s).1 with
  | Some n => Return n
  | None => Raise KeyError
  end.

Definition player2_score (s : State) : outcome Z :=
  match score s !! (players s).2 with
  | Some n => Return n
  | None => Raise KeyError
  end.

(** A list of calls of [set_move], one after the other; a call that raises
    leaves the state as it is and the next one is made. *)
Definition play_moves (ps : list Z) (s : State) : State :=
  foldl (fun st p => (set_move p st).2) s ps.

(** ** Definitions used in the statements *)

(** The turn after a successful move, as [set_move] picks it. *)
Definition next_turn (s : State) : string :=
  if String.eqb (turn s) (players s).1 then (players s).2 else (players s).1.

(** How many of the lines [ls] pass the test of the loop. *)
Fixpoint count_won (m : OrderedDict.t) (ls : list (Z * Z * Z)) : Z :=
  match ls with
  | [] => 0
  | l :: rest => (if line_won m l then 1 else 0) + count_won m rest
  end.

(** The player of the move made last. *)
Definition last_mover (m : OrderedDict.t) : option string := snd <$> last m.

(** The state after [c] passes through the body of the [if] for the winner [w]
    whose score was [n]. *)
Definition record_win (w : string) (n c : Z) (s : State) : State :=
  mkState (moves s) (<[w := n + c]> (score s)) (turn s) (Some w)
    (players s) (tokens s).

(** What [finished] returns from the state the loop leaves. *)
Definition finished_result (s : State) : bool :=
  truthy_opt (winner s) || (Z.of_nat (length (moves s)) =? 9).

(** The states the methods lead to from [State(player1, player2)]; a call that
    raises leaves the state it had reached. *)
Inductive reachable (player1 player2 : string) : State -> Prop :=
  | reach_init (pick : bool) :
      reachable player1 player2 (init player1 player2 pick)
  | reach_reset (s : State) (pick : bool) :
      reachable player1 player2 s ->
      reachable player1 player2 (reset pick s).2
  | reach_set_move (s : State) (position : Z) :
      reachable player1 player2 s ->
      reachable player1 player2 (set_move position s).2
  | reach_finished (s : State) :
      reachable player1 player2 s ->
      reachable player1 player2 (finished s).2.

Definition is_player (player1 player2 q : string) : Prop :=
  q = player1 \/ q = player2.

(** What holds of every reachable state. *)
Record inv (player1 player2 : string) (s : State) : Prop := mk_inv {
  inv_players : players s = (player1, player2);
  inv_tokens :
    tokens s = <[player2 := "O"]> (<[player1 := "X"]> (<[" " := " "]> ∅));
  inv_score1 : is_Some (score s !! player1);
  inv_score2 : is_Some (score s !! player2);
  inv_turn : is_player player1 player2 (turn s);
  inv_nodup : NoDup (OrderedDict.keys (moves s));
  inv_cells : Forall (fun k => 1 <= k <= 9) (OrderedDict.keys (moves s));
  inv_owners : Forall (fun kv => is_player player1 player2 kv.2) (moves s);
  inv_winner :
    forall w, winner s = Some w ->
      is_player player1 player2 w /\
      exists l, l ∈ win_lines /\ line_won (moves s) l = true
}.

(** The mark [tokens] gives a name; the later entries of the dictionary
    literal win over the earlier ones. *)
Definition token_of (player1 player2 q : string) : string :=
  if decide (q = player2) then "O"
  else if decide (q = player1) then "X"
  else " ".

(** The grid [compile_board] builds from the moves [m]: three rows of three
    tokens, and the row left over when the loop ends. *)
Definition render (player1 player2 : string) (m : OrderedDict.t) : board :=
  let t p := token_of player1 player2 (OrderedDict.get m p " ") in
  [ [t 1; t 2; t 3]; [t 4; t 5; t 6]; [t 7; t 8; t 9]; [] ].

(** The token a grid shows at cell [p] (1 to 9, row by row). *)
Definition cell (b : board) (p : Z) : option string :=
  match b !! Z.to_nat ((p - 1) / 3) with
  | Some row => row !! Z.to_nat ((p - 1) mod 3)
  | None => None
  end.

(** Cell [p] of the grid shows a mark and not the empty-cell token. *)
Definition is_filled (b : board) (p : Z) : bool :=
  match cell b p with
  | Some tok => negb (String.eqb tok " ")
  | None => false
  end.

Definition filled_cells (b : board) : list Z :=
  List.filter (is_filled b) (range_from 1 9).

(** The dictionaries [move_replay] passes to [compile_board], one entry
    longer each time. *)
Fixpoint prefixes_from (pre post : OrderedDict.t) : list OrderedDict.t :=
  match post with
  | [] => []
  | x :: post' => (pre ++ [x]) :: prefixes_from (pre ++ [x]) post'
  end.

(** The loop of [NoughtsAndCrosses.play], fed the positions typed in: while
    [finished] says no, the next position is played (a move that raises is
    reported and the loop goes on). The state is the one the loop ends in, or
    the one it waits in when the positions run out. *)
Fixpoint play (inputs : list Z) (s : State) : State :=
  match finished s with
  | (Return false, s') =>
      match inputs with
      | [] => s'
      | p :: rest => play rest (set_move p s').2
      end
  | (_, s') => s'
  end.

(** A takes the top row; [finished] has not been called yet. *)
Definition won_123 : State :=
  play_moves [1; 4; 2; 5; 3] (init "A" "B" false).

(** A takes the four corners and then the centre: two diagonals at once. *)
Definition two_lines_inputs : list Z := [1; 2; 3; 4; 7; 6; 9; 8; 5].

Definition two_lines : State :=
  play_moves two_lines_inputs (init "A" "B" false).

(** A takes the top row, then B moves elsewhere. *)
Definition line_then_move : State :=
  play_moves [1; 4; 2; 5; 3; 7] (init "A" "B" false).

(** A full board with no line. *)
Definition drawn : State :=
  play_moves [1; 2; 3; 5; 4; 6; 8; 7; 9] (init "A" "B" false).

(** The three cells of the line are filled and hold the player [q]. *)
Definition owns_line (m : OrderedDict.t) (q : string) (l : Z * Z * Z) : Prop :=
  let '(a, b, c) := l in
  OrderedDict.find m a = Some q /\
  OrderedDict.find m b = Some q /\
  OrderedDict.find m c = Some q.

(** The three cells of the line are filled and hold the same player. *)
Definition line_complete (m : OrderedDict.t) (l : Z * Z * Z) : Prop :=
  exists q, owns_line m q l.

(** The cell [k] is one of the three of the line. *)
Definition on_line (k : Z) (l : Z * Z * Z) : Prop :=
  let '(a, b, c) := l in k = a \/ k = b \/ k = c.

(** All nine cells are filled. *)
Definition board_full (m : OrderedDict.t) : Prop :=
  forall p, 1 <= p <= 9 -> p ∈ OrderedDict.keys m.

(** [NoughtsAndCrosses.show_board]: the lines it prints, one per row of the
    grid, each row joined by bars. *)
Definition show_board (b : board) : list string :=
  (fun line => String.concat "|" line) <$> b.

(** [NoughtsAndCrosses.show_replay], run to its end: the lines printed, grid
    after grid (the pause between two grids prints nothing), and the
    exception that stopped the replay, if one did. *)
Definition show_replay (s : State) : yielded string :=
  let '(boards, e) := move_replay s in
  (List.concat (show_board <$> boards), e).

(** The loop invariant of [play] on a game started at [s0]: no winner is
    recorded, the score is that of [s0], and no line passed the test before
    the move made last. *)
Definition in_play (s0 s : State) : Prop :=
  winner s = None /\
  score s = score s0 /\
  forall m k w, moves s = m ++ [(k, w)] -> count_won m win_lines = 0.

(** The first player gave no name and takes the top row. *)
Definition unnamed_top_row : State :=
  play_moves [1; 4; 2; 5; 3] (init "" "B" false).

(** A state put together by hand: A holds the top row and the score has no
    entry for anyone. *)
Definition no_score_entry : State :=
  mkState [(1, "A"); (2, "A"); (3, "A")] ∅ "B" None ("A", "B")
    (<["B" := "O"]> (<["A" := "X"]> (<[" " := " "]> ∅))).

(** Two moves made one after the other are by different players. *)
Definition alternating (m : list (Z * string)) : Prop :=
  forall (i : nat) kv kv',
    m !! i = Some kv -> m !! S i = Some kv' -> kv.2 <> kv'.2.

(** What holds of the state [s'] in which the loop of [play] ends, for a game
    started at [s0]: with no winner the score is that of [s0]; a winner holds
    a line of the board, and the score differs from that of [s0] in the
    entry of the winner only, by the number of lines that pass the test. *)
Definition play_outcome (s0 s' : State) : Prop :=
  (winner s' = None -> score s' = score s0) /\
  (forall w, winner s' = Some w ->
     exists l n,
       l ∈ win_lines /\ owns_line (moves s') w l /\
       score s0 !! w = Some n /\
       score s' !! w = Some (n + count_won (moves s') win_lines) /\
       1 <= count_won (moves s') win_lines /\
       forall q, q <> w -> score s' !! q = score s0 !! q).

(** The player called by the blank starts and takes cell 1; B takes the
    centre. *)
Definition blank_named : State :=
  play_moves [1; 5] (init " " "B" false).

(** The grid of nine empty-cell tokens, with the fourth row that
    [compile_board] appends. *)
Definition blank_grid : board :=
  [ [" "; " "; " "]; [" "; " "; " "]; [" "; " "; " "]; [] ].

(** ** The embedding at work *)

Example game_123 :
  let s := play_moves [1; 4; 2; 5; 3] (init "A" "B" false) in
  moves s = [(1, "A"); (4, "B"); (2, "A"); (5, "B"); (3, "A")] /\ turn s = "B".
Proof. vm_compute. split; reflexivity. Qed.

Example board_123 :
  compile_board (play_moves [1; 4; 2; 5; 3] (init "A" "B" false)) None =
  Return [["X"; "X"; "X"]; ["O"; "O"; " "]; [" "; " "; " "]; []].
Proof. vm_compute. reflexivity. Qed.

(** ** Facts about [OrderedDict] *)

Section OrderedDictFacts.

Import OrderedDict.

Lemma find_app (d d' : t) (k : Z) :
  find (d ++ d') k =
  match find d k with
  | Some v => Some v
  | None => find d' k
  end.
Proof.
  induction d as [|[k' v'] d IH]; simpl; [reflexivity|].
  destruct (k =? k'); [reflexivity | apply IH].
Qed.

Lemma find_None_keys (d : t) (k : Z) : find d k = None <-> k ∉ keys d.
Proof.
  unfold keys. induction d as [|[k' v'] d IH]; simpl.
  - split; [intros _; apply not_elem_of_nil | reflexivity].
  - rewrite not_elem_of_cons. destruct (Z.eqb_spec k k') as [->|Hne].
    + split; [discriminate | intros [Hk _]; congruence].
    + rewrite IH. tauto.
Qed.

Lemma find_Some_keys (d : t) (k : Z) (v : string) :
  find d k = Some v -> k ∈ keys d.
Proof.
  intros Hf. destruct (decide (k ∈ keys d)) as [|Hn]; [assumption|].
  apply find_None_keys in Hn. congruence.
Qed.

Lemma find_Some_elem (d : t) (k : Z) (v : string) :
  find d k = Some v -> (k, v) ∈ d.
Proof.
  induction d as [|[k' v'] d IH]; simpl; [discriminate|].
  destruct (Z.eqb_spec k k') as [->|Hne]; intros Hf.
  - injection Hf as ->. apply list_elem_of_here.
  - apply list_elem_of_further, IH, Hf.
Qed.

Lemma contains_keys (d : t) (k : Z) : contains d k = true <-> k ∈ keys d.
Proof.
  unfold contains. destruct (find d k) eqn:Hf.
  - split; [intros _; eapply find_Some_keys, Hf | reflexivity].
  - apply find_None_keys in Hf. split; [discriminate | contradiction].
Qed.

Lemma contains_false_find (d : t) (k : Z) :
  contains d k = false <-> find d k = None.
Proof. unfold contains. destruct (find d k); split; congruence. Qed.

(** Assigning to a key that is not there appends the entry. *)
Lemma setitem_fresh (d : t) (k : Z) (v : string) :
  find d k = None -> setitem d k v = d ++ [(k, v)].
Proof.
  induction d as [|[k' v'] d IH]; simpl; [reflexivity|].
  destruct (k =? k'); [discriminate|]. intros Hf. now rewrite IH.
Qed.

(** With no key twice, the entry inserted last is found under its key. *)
Lemma find_last (d : t) (k : Z) (v : string) :
  NoDup (keys d) -> last d = Some (k, v) -> find d k = Some v.
Proof.
  intros Hnd Hl. apply last_Some in Hl as [d' ->].
  unfold keys in Hnd. rewrite fmap_app in Hnd. simpl in Hnd.
  apply NoDup_app in Hnd as (_ & Hdisj & _).
  rewrite find_app.
  destruct (find d' k) as [v'|] eqn:Hf.
  - exfalso. apply (Hdisj k); [eapply find_Some_keys, Hf | apply list_elem_of_here].
  - simpl. now rewrite Z.eqb_refl.
Qed.

Lemma keys_app (d d' : t) : keys (d ++ d') = keys d ++ keys d'.
Proof. apply fmap_app. Qed.

End OrderedDictFacts.

(** ** [reset] and [set_move], case by case *)

Lemma in_range_spec (lo hi x : Z) : in_range lo hi x = true <-> lo <= x < hi.
Proof. unfold in_range. rewrite andb_true_iff, Z.leb_le, Z.ltb_lt. tauto. Qed.

Lemma reset_run (pick : bool) (s : State) :
  reset pick s =
  (Return tt,
   mkState OrderedDict.empty (score s) (choice pick (players s)) None
     (players s) (tokens s)).
Proof. reflexivity. Qed.

Lemma set_move_illegal (p : Z) (s : State) :
  in_range 1 10 p = false -> set_move p s = (Raise IllegalMoveException, s).
Proof. intros H. unfold set_move, bind, read, raise. now rewrite H. Qed.

Lemma set_move_duplicate (p : Z) (s : State) :
  in_range 1 10 p = true -> OrderedDict.contains (moves s) p = true ->
  set_move p s = (Raise DuplicateMoveException, s).
Proof. intros H1 H2. unfold set_move, bind, read, raise. now rewrite H1, H2. Qed.

Lemma set_move_ok (p : Z) (s : State) :
  in_range 1 10 p = true -> OrderedDict.contains (moves s) p = false ->
  set_move p s =
  (Return tt,
   mkState (moves s ++ [(p, turn s)]) (score s) (next_turn s) (winner s)
     (players s) (tokens s)).
Proof.
  intros H1 H2. unfold set_move, bind, read, raise, update, next_turn.
  rewrite H1, H2. simpl.
  apply contains_false_find in H2.
  rewrite (setitem_fresh _ _ _ H2).
  destruct (String.eqb (turn s) (players s).1); reflexivity.
Qed.

(** The three cases of [set_move] are the only ones. *)
Lemma set_move_cases (p : Z) (s : State) :
  (in_range 1 10 p = false /\
   set_move p s = (Raise IllegalMoveException, s)) \/
  (in_range 1 10 p = true /\ OrderedDict.contains (moves s) p = true /\
   set_move p s = (Raise DuplicateMoveException, s)) \/
  (in_range 1 10 p = true /\ OrderedDict.contains (moves s) p = false /\
   set_move p s =
   (Return tt,
    mkState (moves s ++ [(p, turn s)]) (score s) (next_turn s) (winner s)
      (players s) (tokens s))).
Proof.
  destruct (in_range 1 10 p) eqn:H1.
  - destruct (OrderedDict.contains (moves s) p) eqn:H2.
    + right; left. auto using set_move_duplicate.
    + right; right. auto using set_move_ok.
  - left. auto using set_move_illegal.
Qed.

(** ** The loop of [finished] *)

Lemma count_won_nonneg (m : OrderedDict.t) (ls : list (Z * Z * Z)) :
  0 <= count_won m ls.
Proof. induction ls as [|l ls IH]; simpl; [lia|]. destruct (line_won m l); lia. Qed.

Lemma count_won_zero (m : OrderedDict.t) (ls : list (Z * Z * Z)) :
  count_won m ls = 0 <-> (forall l, l ∈ ls -> line_won m l = false).
Proof.
  induction ls as [|l ls IH]; simpl.
  - split; [intros _ l Hl; now apply elem_of_nil in Hl | reflexivity].
  - pose proof (count_won_nonneg m ls) as Hc. split.
    + intros H l' Hl'. apply elem_of_cons in Hl' as [->|Hl'].
      * destruct (line_won m l); [lia | reflexivity].
      * apply IH; [|assumption]. destruct (line_won m l); lia.
    + intros H. rewrite (H l) by apply list_elem_of_here.
      rewrite (proj2 IH); [reflexivity|].
      intros l' Hl'. apply H. now apply list_elem_of_further.
  Qed.

Lemma check_line_miss (l : Z * Z * Z) (s : State) :
  line_won (moves s) l = false -> check_line l s = (Return tt, s).
Proof. intros H. unfold check_line, bind, read. now rewrite H. Qed.

Lemma check_line_hit (l : Z * Z * Z) (s : State) (k : Z) (w : string) (n : Z) :
  line_won (moves s) l = true ->
  last (moves s) = Some (k, w) ->
  OrderedDict.find (moves s) k = Some w ->
  score s !! w = Some n ->
  check_line l s = (Return tt, record_win w n 1 s).
Proof.
  intros Hw Hl Hf Hs.
  unfold check_line, bind, read, lift, update, bump_score, bind, read,
    OrderedDict.last_key, OrderedDict.getitem.
  rewrite Hw, Hl, Hf. simpl. now rewrite Hs.
Qed.

Lemma check_lines_run (ls : list (Z * Z * Z)) :
  forall (s : State) (k : Z) (w : string) (n : Z),
    last (moves s) = Some (k, w) ->
    OrderedDict.find (moves s) k = Some w ->
    score s !! w = Some n ->
    for_each ls check_line s =
    (Return tt,
     if count_won (moves s) ls =? 0 then s
     else record_win w n (count_won (moves s) ls) s).
Proof.
  induction ls as [|l ls IH]; intros s k w n Hl Hf Hs; [reflexivity|].
  simpl for_each. unfold bind at 1. simpl count_won.
  pose proof (count_won_nonneg (moves s) ls) as Hc.
  destruct (line_won (moves s) l) eqn:Hw.
  - rewrite (check_line_hit l s k w n Hw Hl Hf Hs).
    rewrite (IH (record_win w n 1 s) k w (n + 1)); try assumption.
    + simpl moves.
      replace (1 + count_won (moves s) ls =? 0) with false
        by (symmetry; apply Z.eqb_neq; lia).
      destruct (Z.eqb_spec (count_won (moves s) ls) 0) as [->|_].
      * reflexivity.
      * unfold record_win. simpl. rewrite insert_insert_eq.
        do 2 f_equal. f_equal. lia.
    + simpl. apply lookup_insert_eq.
  - rewrite (check_line_miss l s Hw). simpl.
    now apply (IH s k w n).
Qed.

Lemma check_lines_none (ls : list (Z * Z * Z)) (s : State) :
  count_won (moves s) ls = 0 -> for_each ls check_line s = (Return tt, s).
Proof.
  induction ls as [|l ls IH]; [reflexivity|]. simpl.
  pose proof (count_won_nonneg (moves s) ls) as Hc.
  destruct (line_won (moves s) l) eqn:Hw; [lia|].
  intros H. unfold bind. rewrite (check_line_miss l s Hw). apply IH. lia.
Qed.

(** A line that passes the test has its three cells filled, by one player
    whose name is not empty. *)
Lemma line_won_owner (m : OrderedDict.t) (a b c : Z) :
  line_won m (a, b, c) = true <->
  exists q, q <> "" /\ OrderedDict.find m a = Some q /\
            OrderedDict.find m b = Some q /\ OrderedDict.find m c = Some q.
Proof.
  unfold line_won, OrderedDict.get, truthy.
  rewrite !andb_true_iff, negb_true_iff, !String.eqb_eq, String.eqb_neq.
  split.
  - intros (Hne & Hab & Hbc).
    destruct (OrderedDict.find m a) as [q|]; [|congruence].
    destruct (OrderedDict.find m b) as [q'|]; [|congruence].
    destruct (OrderedDict.find m c) as [q''|]; [|congruence].
    exists q. subst. auto.
  - intros (q & Hne & -> & -> & ->). auto.
Qed.

Lemma line_won_nonempty (m : OrderedDict.t) (l : Z * Z * Z) :
  line_won m l = true -> m <> [].
Proof.
  destruct l as [[a b] c]. intros (q & _ & Hf & _)%line_won_owner ->.
  discriminate.
Qed.

Lemma finished_after_loop (s s' : State) :
  for_each win_lines check_line s = (Return tt, s') ->
  finished s = (Return (finished_result s'), s').
Proof.
  intros H. unfold finished, bind at 1. rewrite H.
  unfold bind, read, ret, finished_result.
  now destruct (truthy_opt (winner s') || _).
Qed.

(** No line passes the test: [finished] changes nothing. *)
Lemma finished_no_line (s : State) :
  count_won (moves s) win_lines = 0 ->
  finished s = (Return (finished_result s), s).
Proof. intros H. apply finished_after_loop, check_lines_none, H. Qed.

(** Some line passes the test: the player of the last move is recorded as the
    winner and their score grows by the number of lines that pass. *)
Lemma finished_some_line (s : State) (k : Z) (w : string) (n : Z) :
  count_won (moves s) win_lines <> 0 ->
  last (moves s) = Some (k, w) ->
  OrderedDict.find (moves s) k = Some w ->
  score s !! w = Some n ->
  finished s =
  (Return (truthy w || (Z.of_nat (length (moves s)) =? 9)),
   record_win w n (count_won (moves s) win_lines) s).
Proof.
  intros Hc Hl Hf Hs.
  rewrite (finished_after_loop s (record_win w n (count_won (moves s) win_lines) s)).
  - reflexivity.
  - rewrite (check_lines_run win_lines s k w n Hl Hf Hs).
    apply Z.eqb_neq in Hc. now rewrite Hc.
Qed.

(** ** The states of a game *)

Section Invariant.

Variables player1 player2 : string.

Local Abbreviation inv := (inv player1 player2).
Local Abbreviation is_player := (is_player player1 player2).

Lemma is_player_score (s : State) (q : string) :
  inv s -> is_player q -> is_Some (score s !! q).
Proof. intros Hi [->| ->]; [apply (inv_score1 _ _ _ Hi) | apply (inv_score2 _ _ _ Hi)]. Qed.

Lemma inv_init (pick : bool) : inv (init player1 player2 pick).
Proof.
  unfold init. rewrite reset_run. simpl.
  constructor; simpl; try done.
  - rewrite lookup_insert. case_decide; [eauto|]. rewrite lookup_insert_eq. eauto.
  - rewrite lookup_insert_eq. eauto.
  - destruct pick; [right | left]; reflexivity.
  - apply NoDup_nil_2.
Qed.

Lemma inv_reset (pick : bool) (s : State) : inv s -> inv (reset pick s).2.
Proof.
  intros Hi. rewrite reset_run. simpl.
  destruct Hi as [Hp Ht H1 H2 _ _ _ _ _].
  constructor; simpl; try done.
  - rewrite Hp. destruct pick; [right | left]; reflexivity.
  - apply NoDup_nil_2.
Qed.

Lemma line_won_app (m m' : OrderedDict.t) (l : Z * Z * Z) :
  line_won m l = true -> line_won (m ++ m') l = true.
Proof.
  destruct l as [[a b] c]. rewrite !line_won_owner.
  intros (q & Hq & Ha & Hb & Hc). exists q.
  rewrite !find_app, Ha, Hb, Hc. auto.
Qed.

Lemma next_turn_player (s : State) : inv s -> is_player (next_turn s).
Proof.
  intros Hi. unfold next_turn. rewrite (inv_players _ _ _ Hi). simpl.
  destruct (String.eqb (turn s) player1); [right | left]; reflexivity.
Qed.

Lemma inv_set_move (p : Z) (s : State) : inv s -> inv (set_move p s).2.
Proof.
  intros Hi.
  destruct (set_move_cases p s) as [[_ ->]|[(_ & _ & ->)|(Hr & Hc & ->)]];
    try assumption.
  simpl. apply in_range_spec in Hr.
  assert (Hn : p ∉ OrderedDict.keys (moves s)).
  { intros Hin%contains_keys. congruence. }
  destruct Hi as [Hp Ht H1 H2 Htu Hnd Hce Hown Hw].
  constructor; simpl; try done.
  - apply next_turn_player. now constructor.
  - rewrite keys_app. apply NoDup_app. split; [assumption|]. split.
    + intros x Hx [->|[]%elem_of_nil]%elem_of_cons. contradiction.
    + apply NoDup_singleton.
  - rewrite keys_app. apply Forall_app. split; [assumption|].
    apply Forall_singleton. simpl. lia.
  - apply Forall_app. split; [assumption|]. now apply Forall_singleton.
  - intros w Hws. destruct (Hw w Hws) as (Hpl & l & Hl & Hlw).
    split; [assumption|]. exists l. split; [assumption|].
    now apply line_won_app.
Qed.

Lemma count_won_exists (m : OrderedDict.t) (ls : list (Z * Z * Z)) :
  count_won m ls <> 0 -> exists l, l ∈ ls /\ line_won m l = true.
Proof.
  induction ls as [|l ls IH]; simpl; [congruence|].
  destruct (line_won m l) eqn:Hw.
  - intros _. exists l. split; [apply list_elem_of_here | assumption].
  - intros H. destruct IH as (l' & Hl' & Hw'); [lia|].
    exists l'. split; [now apply list_elem_of_further | assumption].
Qed.

(** On a state of a game [finished] does not raise, and it either changes
    nothing or records the player of the last move. *)
Lemma finished_run (s : State) :
  inv s ->
  (count_won (moves s) win_lines = 0 /\
   finished s = (Return (finished_result s), s)) \/
  (exists k w n,
     count_won (moves s) win_lines <> 0 /\
     last (moves s) = Some (k, w) /\
     is_player w /\
     score s !! w = Some n /\
     finished s =
     (Return (truthy w || (Z.of_nat (length (moves s)) =? 9)),
      record_win w n (count_won (moves s) win_lines) s)).
Proof.
  intros Hi.
  destruct (Z.eq_dec (count_won (moves s) win_lines) 0) as [Hz|Hnz].
  - left. split; [assumption | now apply finished_no_line].
  - right.
    destruct (count_won_exists _ _ Hnz) as (l & _ & Hl).
    apply line_won_nonempty in Hl.
    destruct (last (moves s)) as [[k w]|] eqn:Hlast;
      [|now apply last_None in Hlast].
    assert (Hpl : is_player w).
    { pose proof (inv_owners _ _ _ Hi) as Hown.
      rewrite Forall_forall in Hown.
      apply (Hown (k, w)). apply last_Some in Hlast as [m' ->].
      apply elem_of_app. right. apply list_elem_of_here. }
    destruct (is_player_score s w Hi Hpl) as [n Hn].
    exists k, w, n. repeat split; try assumption.
    apply (finished_some_line s k w n); try assumption.
    apply find_last; [apply (inv_nodup _ _ _ Hi) | assumption].
Qed.

Lemma inv_finished (s : State) : inv s -> inv (finished s).2.
Proof.
  intros Hi.
  destruct (finished_run s Hi)
    as [[_ ->]|(k & w & n & Hnz & Hlast & Hpl & Hn & ->)]; [assumption|].
  simpl. destruct Hi as [Hp Ht H1 H2 Htu Hnd Hce Hown Hw].
  constructor; simpl; try done.
  - rewrite lookup_insert. case_decide; [eauto | assumption].
  - rewrite lookup_insert. case_decide; [eauto | assumption].
  - intros w' [= <-]. split; [assumption|]. now apply count_won_exists.
Qed.

(** Every state of a game satisfies the invariant. *)
Theorem reachable_inv (s : State) : reachable player1 player2 s -> inv s.
Proof.
  induction 1;
    auto using inv_init, inv_reset, inv_set_move, inv_finished.
Qed.

End Invariant.

(** ** [compile_board] *)

Lemma compile_board_cells (s : State) (arg : option OrderedDict.t)
    (t : Z -> string) :
  (forall p, 1 <= p <= 9 ->
     tokens s !! OrderedDict.get (shown_moves s arg) p " " = Some (t p)) ->
  compile_board s arg =
  Return [ [t 1; t 2; t 3]; [t 4; t 5; t 6]; [t 7; t 8; t 9]; [] ].
Proof.
  intros H. unfold compile_board.
  change (range_from 1 9) with [1; 2; 3; 4; 5; 6; 7; 8; 9].
  cbn [compile_loop].
  repeat (rewrite H by lia; cbn).
  reflexivity.
Qed.

(** Whatever the state and the argument, a grid that [compile_board] returns
    has four rows, the last one empty. *)
Lemma compile_board_shape (s : State) (arg : option OrderedDict.t) (b : board) :
  compile_board s arg = Return b ->
  exists r1 r2 r3,
    b = [r1; r2; r3; []] /\
    length r1 = 3%nat /\ length r2 = 3%nat /\ length r3 = 3%nat.
Proof.
  unfold compile_board.
  change (range_from 1 9) with [1; 2; 3; 4; 5; 6; 7; 8; 9].
  cbn [compile_loop].
  repeat (destruct (tokens s !! _); [cbn | discriminate]).
  intros [= <-]. eauto 10.
Qed.

Section Rendering.

Variables player1 player2 : string.

Local Abbreviation inv := (inv player1 player2).
Local Abbreviation is_player := (is_player player1 player2).
Local Abbreviation token_of := (token_of player1 player2).
Local Abbreviation render := (render player1 player2).

Lemma tokens_lookup (s : State) (q : string) :
  inv s -> q = " " \/ is_player q -> tokens s !! q = Some (token_of q).
Proof.
  intros Hi Hq. rewrite (inv_tokens _ _ _ Hi). unfold token_of.
  rewrite lookup_insert. case_decide; [now rewrite decide_True|].
  rewrite decide_False by congruence.
  rewrite lookup_insert. case_decide; [now rewrite decide_True|].
  rewrite decide_False by congruence.
  destruct Hq as [->|[->| ->]]; [apply lookup_insert_eq | congruence..].
Qed.

Lemma get_owner (m : OrderedDict.t) (p : Z) :
  Forall (fun kv => is_player kv.2) m ->
  OrderedDict.get m p " " = " " \/ is_player (OrderedDict.get m p " ").
Proof.
  intros Hown. unfold OrderedDict.get.
  destruct (OrderedDict.find m p) as [v|] eqn:Hf; [right | now left].
  rewrite Forall_forall in Hown.
  apply (Hown (p, v)), find_Some_elem, Hf.
Qed.

(** On a state of a game, and for moves made by its players,
    [compile_board] does not raise and builds [render]. *)
Lemma compile_board_render (s : State) (arg : option OrderedDict.t) :
  inv s ->
  Forall (fun kv => is_player kv.2) (shown_moves s arg) ->
  compile_board s arg = Return (render (shown_moves s arg)).
Proof.
  intros Hi Hown.
  apply (compile_board_cells s arg
           (fun p => token_of (OrderedDict.get (shown_moves s arg) p " "))).
  intros p _. apply tokens_lookup; [assumption | now apply get_owner].
Qed.

Lemma compile_board_current (s : State) :
  inv s -> compile_board s None = Return (render (moves s)).
Proof. intros Hi. apply (compile_board_render s None Hi), (inv_owners _ _ _ Hi). Qed.

Lemma cell_render (m : OrderedDict.t) (p : Z) :
  1 <= p <= 9 ->
  cell (render m) p = Some (token_of (OrderedDict.get m p " ")).
Proof.
  intros Hp.
  assert (Hc : p = 1 \/ p = 2 \/ p = 3 \/ p = 4 \/ p = 5 \/ p = 6 \/
               p = 7 \/ p = 8 \/ p = 9) by lia.
  repeat (destruct Hc as [->|Hc]; [reflexivity|]). now subst.
Qed.

Lemma token_of_player (q : string) :
  is_player q -> token_of q = "X" \/ token_of q = "O".
Proof.
  intros [->| ->]; unfold token_of.
  - case_decide; [now right|]. rewrite decide_True by reflexivity. now left.
  - rewrite decide_True by reflexivity. now right.
Qed.

Lemma token_of_blank :
  player1 <> " " -> player2 <> " " -> token_of " " = " ".
Proof. intros H1 H2. unfold token_of. now rewrite !decide_False by congruence. Qed.

(** A cell a player has moved to shows a mark. *)
Lemma is_filled_moved (m : OrderedDict.t) (p : Z) :
  Forall (fun kv => is_player kv.2) m ->
  1 <= p <= 9 -> OrderedDict.contains m p = true ->
  is_filled (render m) p = true.
Proof.
  intros Hown Hp Hc. unfold is_filled. rewrite cell_render by assumption.
  unfold OrderedDict.contains in Hc. unfold OrderedDict.get.
  destruct (OrderedDict.find m p) as [v|] eqn:Hf; [|discriminate].
  rewrite Forall_forall in Hown.
  destruct (token_of_player v) as [-> | ->]; [|reflexivity..].
  apply (Hown (p, v)), find_Some_elem, Hf.
Qed.

(** When no player is called by the blank, a cell nobody has moved to shows
    the empty-cell token. *)
Lemma is_filled_free (m : OrderedDict.t) (p : Z) :
  player1 <> " " -> player2 <> " " ->
  1 <= p <= 9 -> OrderedDict.contains m p = false ->
  is_filled (render m) p = false.
Proof.
  intros H1 H2 Hp Hc. unfold is_filled. rewrite cell_render by assumption.
  unfold OrderedDict.contains in Hc. unfold OrderedDict.get.
  destruct (OrderedDict.find m p); [discriminate|].
  now rewrite token_of_blank.
Qed.

Lemma range_from_spec (n : nat) : forall lo x,
  x ∈ range_from lo n <-> lo <= x < lo + Z.of_nat n.
Proof.
  induction n as [|n IH]; intros lo x; simpl range_from.
  - rewrite elem_of_nil. lia.
  - rewrite elem_of_cons, IH. lia.
Qed.

Lemma elem_of_filled_cells (b : board) (p : Z) :
  p ∈ filled_cells b <-> 1 <= p <= 9 /\ is_filled b p = true.
Proof.
  unfold filled_cells. rewrite list_elem_of_In, filter_In, <- list_elem_of_In.
  rewrite range_from_spec.
  assert (1 <= p < 1 + Z.of_nat 9 <-> 1 <= p <= 9) as -> by lia.
  reflexivity.
Qed.

Lemma filled_cells_render (m : OrderedDict.t) (p : Z) :
  player1 <> " " -> player2 <> " " ->
  Forall (fun kv => is_player kv.2) m ->
  p ∈ filled_cells (render m) <->
  1 <= p <= 9 /\ p ∈ OrderedDict.keys m.
Proof.
  intros H1 H2 Hown. rewrite elem_of_filled_cells, <- contains_keys.
  split; intros [Hp Hf]; (split; [assumption|]).
  - destruct (OrderedDict.contains m p) eqn:Hc; [reflexivity|].
    now rewrite is_filled_free in Hf.
  - now apply is_filled_moved.
Qed.

End Rendering.

(** ** [move_replay] *)

Lemma prefixes_from_length (post : OrderedDict.t) :
  forall pre, length (prefixes_from pre post) = length post.
Proof. induction post as [|x post IH]; intros pre; simpl; [|rewrite IH]; reflexivity. Qed.

Lemma prefixes_from_lookup (post : OrderedDict.t) :
  forall pre (i : nat) m,
    prefixes_from pre post !! i = Some m ->
    (i < length post)%nat /\ m = pre ++ take (S i) post.
Proof.
  induction post as [|x post IH]; intros pre i m; simpl prefixes_from.
  - intros H. now rewrite lookup_nil in H.
  - destruct i as [|i].
    + intros [= <-]. simpl. split; [lia|]. now rewrite take_0.
    + intros H. apply IH in H as [Hlt ->]. split; [simpl; lia|].
      now rewrite <- app_assoc.
Qed.

Lemma prefixes_from_last (pre post m : OrderedDict.t) :
  last (prefixes_from pre post) = Some m -> m = pre ++ post.
Proof.
  rewrite last_lookup, prefixes_from_length.
  intros H. apply prefixes_from_lookup in H as [Hlt ->].
  rewrite take_ge; [reflexivity | lia].
Qed.

Lemma truthy_list_snoc {A} (l : list A) (x : A) : truthy_list (l ++ [x]) = true.
Proof. now destruct l. Qed.

Section Replay.

Variables player1 player2 : string.

Local Abbreviation inv := (inv player1 player2).
Local Abbreviation is_player := (is_player player1 player2).
Local Abbreviation render := (render player1 player2).

Lemma replay_loop_run (s : State) (post : OrderedDict.t) :
  forall pre,
    inv s -> moves s = pre ++ post ->
    replay_loop s pre (OrderedDict.keys post) =
    (render <$> prefixes_from pre post, None).
Proof.
  induction post as [|[k v] post IH]; intros pre Hi Hm; [reflexivity|].
  pose proof (inv_nodup _ _ _ Hi) as Hnd.
  pose proof (inv_owners _ _ _ Hi) as Hown.
  rewrite Hm in Hnd, Hown. rewrite keys_app in Hnd.
  apply NoDup_app in Hnd as (_ & Hdisj & _).
  apply Forall_app in Hown as [Hpre Hpost].
  assert (Hfresh : OrderedDict.find pre k = None).
  { apply find_None_keys. intros Hin. apply (Hdisj k Hin), list_elem_of_here. }
  simpl. unfold OrderedDict.getitem.
  rewrite Hm, find_app, Hfresh. simpl. rewrite Z.eqb_refl.
  rewrite (setitem_fresh _ _ _ Hfresh).
  rewrite (compile_board_render player1 player2 s _ Hi);
    unfold shown_moves; rewrite truthy_list_snoc.
  - rewrite (IH (pre ++ [(k, v)]) Hi); [reflexivity|].
    now rewrite <- app_assoc.
  - apply Forall_app. split; [assumption|].
    apply Forall_singleton. now apply Forall_cons in Hpost as [? _].
Qed.

Lemma move_replay_run (s : State) :
  inv s -> move_replay s = (render <$> prefixes_from [] (moves s), None).
Proof. intros Hi. now apply replay_loop_run. Qed.

(** The grid of one more move, at a free cell of the board, shows strictly
    more filled cells. *)
Lemma filled_cells_grow (m : OrderedDict.t) (k : Z) (v : string) :
  player1 <> " " -> player2 <> " " ->
  Forall (fun kv => is_player kv.2) (m ++ [(k, v)]) ->
  1 <= k <= 9 -> k ∉ OrderedDict.keys m ->
  filled_cells (render m) ⊂ filled_cells (render (m ++ [(k, v)])).
Proof.
  intros H1 H2 Hown Hk Hfresh.
  pose proof Hown as Hown'. apply Forall_app in Hown' as [Hm _].
  split.
  - intros x. rewrite !filled_cells_render by assumption.
    rewrite keys_app, elem_of_app. tauto.
  - intros Hsub. specialize (Hsub k).
    rewrite !filled_cells_render in Hsub by assumption.
    destruct Hsub as [_ Hin]; [|contradiction].
    split; [assumption|]. rewrite keys_app, elem_of_app. right.
    apply list_elem_of_here.
Qed.

End Replay.

(** ** Games and lines *)

Lemma reachable_play_moves (player1 player2 : string) (ps : list Z) :
  forall s, reachable player1 player2 s ->
            reachable player1 player2 (play_moves ps s).
Proof.
  unfold play_moves. induction ps as [|p ps IH]; intros s Hr; simpl.
  - assumption.
  - apply IH. now apply reach_set_move.
Qed.

Lemma line_won_complete (m : OrderedDict.t) (l : Z * Z * Z) :
  line_won m l = true -> line_complete m l.
Proof.
  destruct l as [[a b] c]. intros (q & _ & H)%line_won_owner. now exists q.
Qed.

Lemma board_full_check (m : OrderedDict.t) :
  forallb (OrderedDict.contains m) (range_from 1 9) = true -> board_full m.
Proof.
  intros H p Hp. apply contains_keys.
  rewrite forallb_forall in H. apply H.
  apply list_elem_of_In, range_from_spec. lia.
Qed.

Lemma no_line_check (m : OrderedDict.t) :
  count_won m win_lines = 0 ->
  Forall (fun kv => kv.2 <> "") m ->
  forall l, l ∈ win_lines -> ~ line_complete m l.
Proof.
  intros Hc Hne [[a b] c] Hl [q Hq].
  rewrite count_won_zero in Hc. specialize (Hc _ Hl).
  assert (line_won m (a, b, c) = true); [|congruence].
  apply line_won_owner. exists q. split; [|exact Hq].
  destruct Hq as [Ha _]. rewrite Forall_forall in Hne.
  apply (Hne (a, q)), find_Some_elem, Ha.
Qed.

Lemma board_full_length (m : OrderedDict.t) :
  NoDup (OrderedDict.keys m) ->
  Forall (fun k => 1 <= k <= 9) (OrderedDict.keys m) ->
  board_full m -> length m = 9%nat.
Proof.
  intros Hnd Hr Hfull.
  assert (Hp : OrderedDict.keys m ≡ₚ range_from 1 9).
  { apply NoDup_Permutation; [assumption | |].
    - apply (bool_decide_unpack _). vm_compute. reflexivity.
    - intros x. rewrite range_from_spec. rewrite Forall_forall in Hr. split.
      + intros Hx. specialize (Hr x Hx). simpl in Hr. lia.
      + intros Hx. apply Hfull. lia. }
  apply Permutation_length in Hp. unfold OrderedDict.keys in Hp.
  now rewrite length_fmap in Hp.
Qed.

(** ** Properties of the game state *)

(** C4. For every integer position [p], [set_move p] raises
    [IllegalMoveException] exactly when [p] is outside 1..9; for [p] in 1..9
    it raises [DuplicateMoveException] exactly when cell [p] is already
    filled; otherwise it succeeds and records [p] for the player whose turn
    it is, after the moves made so far. *)
Theorem set_move_outcome (s : State) (p : Z) :
  ((set_move p s).1 = Raise IllegalMoveException <-> ~ 1 <= p <= 9) /\
  (1 <= p <= 9 ->
   ((set_move p s).1 = Raise DuplicateMoveException <->
    p ∈ OrderedDict.keys (moves s))) /\
  (1 <= p <= 9 -> p ∉ OrderedDict.keys (moves s) ->
   (set_move p s).1 = Return tt /\
   moves (set_move p s).2 = moves s ++ [(p, turn s)]).
Proof.
  rewrite <- contains_keys.
  destruct (set_move_cases p s)
    as [[Hr ->]|[(Hr & Hc & ->)|(Hr & Hc & ->)]]; simpl.
  - assert (~ 1 <= p <= 9).
    { intros H. assert (in_range 1 10 p = true) by (apply in_range_spec; lia).
      congruence. }
    repeat split; try tauto. 
  - apply in_range_spec in Hr. repeat split; try intros; try lia; try done.
  - apply in_range_spec in Hr. rewrite Hc.
    repeat split; try intros; try lia; try done.
Qed.

(** C9. A [set_move] that raises changes nothing: moves, score, turn, winner,
    players and tokens are as they were before the call. The exception is
    one of the two the method raises by name. *)
Theorem set_move_failure_atomic (s : State) (p : Z) (e : exn) :
  (set_move p s).1 = Raise e ->
  (set_move p s).2 = s /\
  (e = IllegalMoveException \/ e = DuplicateMoveException).
Proof.
  destruct (set_move_cases p s) as [[_ ->]|[(_ & _ & ->)|(_ & _ & ->)]];
    simpl; intros [= <-]; auto.
Qed.

Lemma set_move_failure_atomic_witness :
  (set_move 0 won_123).2 = won_123 /\
  (set_move 1 won_123).2 = won_123.
Proof.
  split.
  - apply (set_move_failure_atomic won_123 0 IllegalMoveException).
    reflexivity.
  - apply (set_move_failure_atomic won_123 1 DuplicateMoveException).
    reflexivity.
Defined.

(** C8. [reset] empties the moves and clears the winner; the score, and with
    it what [player1_score] and [player2_score] read, is as before. *)
Theorem reset_keeps_score (s : State) (pick : bool) :
  (reset pick s).1 = Return tt /\
  moves (reset pick s).2 = [] /\
  winner (reset pick s).2 = None /\
  score (reset pick s).2 = score s /\
  player1_score (reset pick s).2 = player1_score s /\
  player2_score (reset pick s).2 = player2_score s.
Proof. rewrite reset_run. repeat split; reflexivity. Qed.

Section Turn.

Variables player1 player2 : string.

Lemma next_turn_other (s : State) :
  inv player1 player2 s -> player1 <> player2 ->
  is_player player1 player2 (next_turn s) /\ next_turn s <> turn s.
Proof.
  intros Hi Hne. split; [now apply next_turn_player|].
  unfold next_turn. rewrite (inv_players _ _ _ Hi). simpl.
  destruct (String.eqb_spec (turn s) player1) as [->|Hn]; [congruence|].
  destruct (inv_turn _ _ _ Hi) as [?| ->]; congruence.
Qed.

Lemma set_move_turn (s : State) (p : Z) :
  inv player1 player2 s -> player1 <> player2 ->
  (set_move p s).1 = Return tt ->
  is_player player1 player2 (turn (set_move p s).2) /\
  turn (set_move p s).2 <> turn s.
Proof.
  intros Hi Hne.
  destruct (set_move_cases p s) as [[_ ->]|[(_ & _ & ->)|(_ & _ & ->)]];
    simpl; try discriminate.
  intros _. now apply next_turn_other.
Qed.

End Turn.

(** C7, as stated, fails: with both players called A, a successful
    [set_move] leaves the turn at A. *)
Lemma same_names_turn_stays :
  reachable "A" "A" (init "A" "A" false) /\
  (set_move 1 (init "A" "A" false)).1 = Return tt /\
  turn (set_move 1 (init "A" "A" false)).2 = turn (init "A" "A" false).
Proof.
  split; [apply reach_init|]. split; vm_compute; reflexivity.
Qed.

(** C7, amended. A [set_move] that raises leaves the turn as it was. A
    successful [set_move] sets the turn to the second name of [players] when
    it was equal to the first, and to the first name otherwise. When the two
    names differ this is the other player: the turn changes, and a second
    successful [set_move] passes it back. When the two names are equal the
    turn stays that name. *)
Theorem turn_alternates (player1 player2 : string) (s : State) (p : Z) :
  reachable player1 player2 s ->
  ((set_move p s).1 <> Return tt -> turn (set_move p s).2 = turn s) /\
  ((set_move p s).1 = Return tt ->
   turn (set_move p s).2 =
   if String.eqb (turn s) player1 then player2 else player1) /\
  (player1 <> player2 ->
   (set_move p s).1 = Return tt ->
   is_player player1 player2 (turn (set_move p s).2) /\
   turn (set_move p s).2 <> turn s /\
   forall p', (set_move p' (set_move p s).2).1 = Return tt ->
              turn (set_move p' (set_move p s).2).2 = turn s) /\
  (player1 = player2 -> turn (set_move p s).2 = turn s).
Proof.
  intros Hi%reachable_inv.
  assert (Hslot : (set_move p s).1 = Return tt ->
            turn (set_move p s).2 =
            if String.eqb (turn s) player1 then player2 else player1).
  { destruct (set_move_cases p s) as [[_ ->]|[(_ & _ & ->)|(_ & _ & ->)]];
      simpl; try discriminate.
    intros _. unfold next_turn. now rewrite (inv_players _ _ _ Hi). }
  assert (Hfail : (set_move p s).1 <> Return tt ->
            turn (set_move p s).2 = turn s).
  { destruct (set_move_cases p s) as [[_ ->]|[(_ & _ & ->)|(_ & _ & ->)]];
      simpl; congruence. }
  split; [assumption|]. split; [assumption|]. split.
  - intros Hne Hok.
    destruct (set_move_turn _ _ s p Hi Hne Hok) as [Hpl Hd].
    repeat split; try assumption.
    intros p' Hok'.
    destruct (set_move_turn _ _ _ p' (inv_set_move _ _ p s Hi) Hne Hok')
      as [Hpl' Hd'].
    destruct (inv_turn _ _ _ Hi) as [Ht|Ht], Hpl as [H1|H1], Hpl' as [H2|H2];
      congruence.
  - intros Heq.
    destruct (set_move_cases p s) as [[_ Hrun]|[(_ & _ & Hrun)|(_ & _ & Hrun)]];
      try (rewrite Hrun; reflexivity).
    rewrite Hslot by now rewrite Hrun.
    destruct (inv_turn _ _ _ Hi) as [Ht|Ht];
      destruct (String.eqb (turn s) player1); congruence.
Qed.

Lemma turn_alternates_witness :
  ((set_move 1 (init "A" "B" false)).1 <> Return tt ->
   turn (set_move 1 (init "A" "B" false)).2 = turn (init "A" "B" false)) /\
  ((set_move 1 (init "A" "B" false)).1 = Return tt ->
   turn (set_move 1 (init "A" "B" false)).2 =
   if String.eqb (turn (init "A" "B" false)) "A" then "B" else "A") /\
  ("A" <> "B" ->
   (set_move 1 (init "A" "B" false)).1 = Return tt ->
   is_player "A" "B" (turn (set_move 1 (init "A" "B" false)).2) /\
   turn (set_move 1 (init "A" "B" false)).2 <> turn (init "A" "B" false) /\
   forall p', (set_move p' (set_move 1 (init "A" "B" false)).2).1 = Return tt ->
              turn (set_move p' (set_move 1 (init "A" "B" false)).2).2 =
              turn (init "A" "B" false)) /\
  ("A" = "B" ->
   turn (set_move 1 (init "A" "B" false)).2 = turn (init "A" "B" false)).
Proof.
  apply (turn_alternates "A" "B" (init "A" "B" false) 1).
  apply reach_init.
Defined.

Example turns_of_a_game :
  turn (init "A" "B" false) = "A" /\
  turn (set_move 1 (init "A" "B" false)).2 = "B" /\
  turn (set_move 4 (set_move 1 (init "A" "B" false)).2).2 = "A" /\
  turn (set_move 4 (set_move 4 (set_move 1 (init "A" "B" false)).2).2).2 = "A".
Proof. vm_compute. repeat split; reflexivity. Qed.

(** Each call of [finished] on a state of a game with a line that passes the
    test adds, to the score of the player of the last move, the number of
    lines that pass; a second call adds it again. *)
Lemma finished_score_growth (player1 player2 : string) (s : State) :
  reachable player1 player2 s ->
  count_won (moves s) win_lines <> 0 ->
  exists w n,
    last_mover (moves s) = Some w /\
    score s !! w = Some n /\
    winner (finished s).2 = Some w /\
    score (finished s).2 !! w = Some (n + count_won (moves s) win_lines) /\
    score (finished (finished s).2).2 !! w =
      Some (n + 2 * count_won (moves s) win_lines).
Proof.
  intros Hr Hnz. pose proof (reachable_inv _ _ _ Hr) as Hi.
  destruct (finished_run _ _ s Hi)
    as [[Hz _]|(k & w & n & _ & Hlast & _ & Hn & Hrun)]; [contradiction|].
  pose proof (find_last _ _ _ (inv_nodup _ _ _ Hi) Hlast) as Hk.
  set (c := count_won (moves s) win_lines) in *.
  assert (Hrun' :
    finished (record_win w n c s) =
    (Return (truthy w || (Z.of_nat (length (moves s)) =? 9)),
     record_win w (n + c) c (record_win w n c s))).
  { apply (finished_some_line (record_win w n c s) k w (n + c));
      try assumption.
    apply lookup_insert_eq. }
  exists w, n. unfold last_mover. rewrite Hlast, Hrun.
  cbn [fst snd]. rewrite Hrun'.
  unfold record_win. cbn [moves score fst snd winner].
  rewrite !lookup_insert_eq. repeat split; [assumption | f_equal; lia].
Qed.

(** C1. The score of the winner does not grow by exactly one. A wins the top
    row ([won_123]): the first call of [finished] returns true, records A
    and gives A one point, and a second call gives A a second point for the
    same game. A wins two diagonals with one move ([two_lines], which is also
    where the loop of [play] ends on these inputs): a single call of
    [finished] gives A two points. *)
Theorem finished_counts_a_win_more_than_once :
  (score won_123 !! "A" = Some 0 /\
   (finished won_123).1 = Return true /\
   winner (finished won_123).2 = Some "A" /\
   score (finished won_123).2 !! "A" = Some 1 /\
   (finished (finished won_123).2).1 = Return true /\
   score (finished (finished won_123).2).2 !! "A" = Some 2) /\
  (score two_lines !! "A" = Some 0 /\
   count_won (moves two_lines) win_lines = 2 /\
   (finished two_lines).1 = Return true /\
   winner (finished two_lines).2 = Some "A" /\
   score (finished two_lines).2 !! "A" = Some 2 /\
   play two_lines_inputs (init "A" "B" false) = (finished two_lines).2).
Proof. vm_compute. repeat split; reflexivity. Qed.

(** C2, as stated, fails: in [line_then_move] the top row is complete and
    held by A, [finished] detects it, and the winner it records is B, who
    made the last move and holds no line. *)
Lemma winner_need_not_own_line :
  reachable "A" "B" line_then_move /\
  (1, 2, 3) ∈ win_lines /\
  line_won (moves line_then_move) (1, 2, 3) = true /\
  owns_line (moves line_then_move) "A" (1, 2, 3) /\
  winner (finished line_then_move).2 = Some "B" /\
  Forall (fun l => ~ owns_line (moves line_then_move) "B" l) win_lines.
Proof.
  split; [apply reachable_play_moves, reach_init|].
  split; [apply list_elem_of_here|].
  split; [vm_compute; reflexivity|].
  split; [vm_compute; repeat split|].
  split; [vm_compute; reflexivity|].
  repeat constructor; intros (H1 & H2 & H3); vm_compute in H1, H2, H3;
    congruence.
Qed.

(** A line that passes the test only once the last move is made goes
    through the cell of that move. *)
Lemma line_won_last_move (m : OrderedDict.t) (k : Z) (v : string)
    (l : Z * Z * Z) :
  line_won (m ++ [(k, v)]) l = true -> line_won m l = false -> on_line k l.
Proof.
  destruct l as [[a b] c]. intros Hnew Hold. unfold on_line.
  destruct (Z.eq_dec k a) as [|Ha]; [auto|].
  destruct (Z.eq_dec k b) as [|Hb]; [auto|].
  destruct (Z.eq_dec k c) as [|Hc]; [auto|].
  exfalso. apply line_won_owner in Hnew as (q & Hq & Hfa & Hfb & Hfc).
  rewrite find_app in Hfa, Hfb, Hfc. simpl in Hfa, Hfb, Hfc.
  assert (line_won m (a, b, c) = true); [|congruence].
  apply line_won_owner. exists q. split; [assumption|].
  repeat split.
  - destruct (OrderedDict.find m a); [assumption|].
    destruct (Z.eqb_spec a k); [congruence | discriminate].
  - destruct (OrderedDict.find m b); [assumption|].
    destruct (Z.eqb_spec b k); [congruence | discriminate].
  - destruct (OrderedDict.find m c); [assumption|].
    destruct (Z.eqb_spec c k); [congruence | discriminate].
Qed.

(** C2, amended. On a state of a game where a line passes the test of
    [finished], the winner recorded is the player of the last move. This
    player holds the line when the cell of the last move is on it, and so
    whenever no line passed the test before the last move. *)
Theorem finished_winner_is_last_mover
    (player1 player2 : string) (s : State) (l : Z * Z * Z) :
  reachable player1 player2 s ->
  l ∈ win_lines ->
  line_won (moves s) l = true ->
  exists k w,
    last (moves s) = Some (k, w) /\
    winner (finished s).2 = Some w /\
    (on_line k l -> owns_line (moves s) w l) /\
    (forall m, moves s = m ++ [(k, w)] -> count_won m win_lines = 0 ->
               owns_line (moves s) w l).
Proof.
  intros Hi%reachable_inv Hl Hw.
  destruct (finished_run _ _ s Hi)
    as [[Hz _]|(k & w & n & _ & Hlast & _ & _ & ->)].
  - rewrite count_won_zero in Hz. rewrite (Hz l Hl) in Hw. discriminate.
  - exists k, w.
    assert (Hon : on_line k l -> owns_line (moves s) w l).
    { pose proof (find_last _ _ _ (inv_nodup _ _ _ Hi) Hlast) as Hk.
      destruct l as [[a b] c].
      apply line_won_owner in Hw as (q & _ & Ha & Hb & Hc).
      intros [->|[->| ->]]; assert (q = w) as -> by congruence;
        now repeat split. }
    repeat split; try assumption.
    intros m Hm Hz. apply Hon. rewrite count_won_zero in Hz.
    rewrite Hm in Hw. apply (line_won_last_move m k w l Hw (Hz l Hl)).
Qed.

Lemma finished_winner_is_last_mover_witness :
  exists k w,
    last (moves won_123) = Some (k, w) /\
    winner (finished won_123).2 = Some w /\
    (on_line k (1, 2, 3) -> owns_line (moves won_123) w (1, 2, 3)) /\
    (forall m, moves won_123 = m ++ [(k, w)] -> count_won m win_lines = 0 ->
               owns_line (moves won_123) w (1, 2, 3)).
Proof.
  apply (finished_winner_is_last_mover "A" "B" won_123 (1, 2, 3)).
  - apply reachable_play_moves, reach_init.
  - apply list_elem_of_here.
  - vm_compute. reflexivity.
Defined.

(** C3. The grid is not 3 by 3: whatever the state and the argument, a grid
    that [compile_board] returns has four rows, three of three tokens and an
    empty one after them; so has the grid of a new game. *)
Theorem compile_board_has_four_rows :
  compile_board (init "A" "B" false) None =
    Return [ [" "; " "; " "]; [" "; " "; " "]; [" "; " "; " "]; [] ] /\
  forall (s : State) (arg : option OrderedDict.t) (b : board),
    compile_board s arg = Return b ->
    length b = 4%nat /\ b !! 3%nat = Some [] /\
    forall i row, (i < 3)%nat -> b !! i = Some row -> length row = 3%nat.
Proof.
  split; [vm_compute; reflexivity|].
  intros s arg b (r1 & r2 & r3 & -> & H1 & H2 & H3)%compile_board_shape.
  repeat split.
  intros [|[|[|i]]] row Hi Hrow; [| | |lia];
    injection Hrow as <-; assumption.
Qed.

(** C6. On a state of a game with the nine cells filled and no line complete,
    [finished] returns true and changes nothing: no winner is recorded and
    the score is as before. *)
Theorem finished_draw (player1 player2 : string) (s : State) :
  reachable player1 player2 s ->
  board_full (moves s) ->
  (forall l, l ∈ win_lines -> ~ line_complete (moves s) l) ->
  finished s = (Return true, s) /\
  winner (finished s).2 = None /\
  score (finished s).2 = score s.
Proof.
  intros Hi%reachable_inv Hfull Hno.
  assert (Hz : count_won (moves s) win_lines = 0).
  { apply count_won_zero. intros l Hl.
    destruct (line_won (moves s) l) eqn:Hw; [|reflexivity].
    exfalso. apply (Hno l Hl), line_won_complete, Hw. }
  assert (Hnone : winner s = None).
  { destruct (winner s) as [w|] eqn:Hw; [|reflexivity].
    destruct (inv_winner _ _ _ Hi w Hw) as (_ & l & Hl & Hlw).
    rewrite count_won_zero in Hz. rewrite (Hz l Hl) in Hlw. discriminate. }
  rewrite (finished_no_line s Hz). unfold finished_result.
  rewrite (board_full_length _ (inv_nodup _ _ _ Hi) (inv_cells _ _ _ Hi) Hfull).
  rewrite Hnone. simpl. auto.
Qed.

Lemma finished_draw_witness :
  finished drawn = (Return true, drawn) /\
  winner (finished drawn).2 = None /\
  score (finished drawn).2 = score drawn.
Proof.
  apply (finished_draw "A" "B" drawn).
  - apply reachable_play_moves, reach_init.
  - apply board_full_check. vm_compute. reflexivity.
  - apply no_line_check; [vm_compute; reflexivity|].
    vm_compute. repeat constructor; discriminate.
Defined.

Section Superset.

Variables player1 player2 : string.

(** The grid of one more move shows every cell the grid before it showed
    filled, whatever the names of the players. *)
Lemma filled_cells_keep (m : OrderedDict.t) (k : Z) (v : string) :
  Forall (fun kv => is_player player1 player2 kv.2) (m ++ [(k, v)]) ->
  filled_cells (render player1 player2 m) ⊆
  filled_cells (render player1 player2 (m ++ [(k, v)])).
Proof.
  intros Hown x. rewrite !elem_of_filled_cells. intros [Hx Hf].
  split; [assumption|].
  destruct (OrderedDict.contains (m ++ [(k, v)]) x) eqn:Hc;
    [now apply is_filled_moved|].
  apply contains_false_find in Hc. pose proof Hc as Hc'.
  rewrite find_app in Hc'.
  destruct (OrderedDict.find m x) eqn:Hm; [discriminate|].
  unfold is_filled in *. rewrite cell_render in * by assumption.
  unfold OrderedDict.get in *. now rewrite Hc, Hm in *.
Qed.

End Superset.

(** C5, as stated, fails: in [blank_named] the first player is called by the
    blank, which gives the empty cells the mark X; the two grids of the
    replay show the same nine cells filled, so the second is no strict
    superset of the first. *)
Lemma blank_name_replay_not_strict :
  reachable " " "B" blank_named /\
  moves blank_named = [(1, " "); (5, "B")] /\
  move_replay blank_named =
    ([ [["X"; "X"; "X"]; ["X"; "X"; "X"]; ["X"; "X"; "X"]; []];
       [["X"; "X"; "X"]; ["X"; "O"; "X"]; ["X"; "X"; "X"]; []] ], None) /\
  filled_cells [["X"; "X"; "X"]; ["X"; "X"; "X"]; ["X"; "X"; "X"]; []] =
  filled_cells [["X"; "X"; "X"]; ["X"; "O"; "X"]; ["X"; "X"; "X"]; []] /\
  ~ filled_cells [["X"; "X"; "X"]; ["X"; "X"; "X"]; ["X"; "X"; "X"]; []] ⊂
    filled_cells [["X"; "X"; "X"]; ["X"; "O"; "X"]; ["X"; "X"; "X"]; []].
Proof.
  split; [apply reachable_play_moves, reach_init|].
  split; [vm_compute; reflexivity|].
  split; [vm_compute; reflexivity|].
  split; [vm_compute; reflexivity|].
  intros [_ Hstrict]. apply Hstrict. intros x Hx. exact Hx.
Qed.

(** C5, amended. On every state of a game [move_replay] runs to its end
    without raising and yields one grid per move made, in the order of play:
    the grid number [i] is the one [compile_board] builds from the first
    [i + 1] moves, and the last grid is the one [compile_board] builds with
    no argument. The filled cells of each grid include those of the grid
    before; when no player is called by the blank they include them
    strictly. *)
Theorem move_replay_snapshots (player1 player2 : string) (s : State) :
  reachable player1 player2 s ->
  exists boards,
    move_replay s = (boards, None) /\
    length boards = length (moves s) /\
    (forall (i : nat) b,
       boards !! i = Some b ->
       compile_board s (Some (take (S i) (moves s))) = Return b) /\
    (forall b, last boards = Some b -> compile_board s None = Return b) /\
    (forall (i : nat) b b',
       boards !! i = Some b -> boards !! S i = Some b' ->
       filled_cells b ⊆ filled_cells b') /\
    (player1 <> " " -> player2 <> " " ->
     forall (i : nat) b b',
       boards !! i = Some b -> boards !! S i = Some b' ->
       filled_cells b ⊂ filled_cells b').
Proof.
  intros Hi%reachable_inv.
  exists (render player1 player2 <$> prefixes_from [] (moves s)).
  pose proof (inv_owners _ _ _ Hi) as Hown.
  assert (Hlook : forall (i : nat) b,
    (render player1 player2 <$> prefixes_from [] (moves s)) !! i = Some b ->
    (i < length (moves s))%nat /\
    b = render player1 player2 (take (S i) (moves s))).
  { intros i b. rewrite list_lookup_fmap.
    destruct (prefixes_from [] (moves s) !! i) as [m|] eqn:Hm; [|discriminate].
    apply prefixes_from_lookup in Hm as [Hlt ->]. intros [= <-]. auto. }
  assert (Hnext : forall (i : nat), (S i < length (moves s))%nat ->
    exists k v,
      take (S (S i)) (moves s) = take (S i) (moves s) ++ [(k, v)] /\
      Forall (fun kv => is_player player1 player2 kv.2)
        (take (S i) (moves s) ++ [(k, v)]) /\
      1 <= k <= 9 /\ k ∉ OrderedDict.keys (take (S i) (moves s))).
  { intros i Hlt.
    destruct (lookup_lt_is_Some_2 (moves s) (S i) Hlt) as [[k v] Hkv].
    exists k, v. split; [apply (take_S_r _ _ _ Hkv)|].
    pose proof (take_drop_middle _ _ _ Hkv) as Hsplit.
    pose proof (inv_nodup _ _ _ Hi) as Hnd.
    pose proof (inv_cells _ _ _ Hi) as Hce.
    rewrite <- Hsplit in Hnd, Hce, Hown.
    rewrite keys_app in Hnd, Hce.
    apply NoDup_app in Hnd as (_ & Hdisj & _).
    apply Forall_app in Hce as [_ Hce]. apply Forall_cons in Hce as [Hk _].
    apply Forall_app in Hown as [Hpre Hpost].
    apply Forall_cons in Hpost as [Hv _].
    split; [|split; [exact Hk|]].
    - apply Forall_app. split; [assumption | now apply Forall_singleton].
    - intros Hin. apply (Hdisj k Hin), list_elem_of_here. }
  split; [now apply move_replay_run|].
  split; [now rewrite length_fmap, prefixes_from_length|].
  split; [|split; [|split]].
  - intros i b [Hlt ->]%Hlook.
    assert (Htr : truthy_list (take (S i) (moves s)) = true).
    { destruct (moves s); [simpl in Hlt; lia | reflexivity]. }
    rewrite (compile_board_render player1 player2 s _ Hi);
      unfold shown_moves; rewrite Htr; [reflexivity|].
    now apply Forall_take.
  - intros b. rewrite fmap_last.
    destruct (last (prefixes_from [] (moves s))) as [m|] eqn:Hm; [|discriminate].
    apply prefixes_from_last in Hm as ->. intros [= <-].
    now apply compile_board_current.
  - intros i b b' [_ ->]%Hlook [Hlt ->]%Hlook.
    destruct (Hnext i Hlt) as (k & v & -> & Hpl & _ & _).
    now apply filled_cells_keep.
  - intros H1 H2 i b b' [_ ->]%Hlook [Hlt ->]%Hlook.
    destruct (Hnext i Hlt) as (k & v & -> & Hpl & Hk & Hfresh).
    now apply filled_cells_grow.
Qed.

Lemma move_replay_snapshots_witness :
  exists boards,
    move_replay won_123 = (boards, None) /\
    length boards = length (moves won_123) /\
    (forall (i : nat) b,
       boards !! i = Some b ->
       compile_board won_123 (Some (take (S i) (moves won_123))) = Return b) /\
    (forall b, last boards = Some b -> compile_board won_123 None = Return b) /\
    (forall (i : nat) b b',
       boards !! i = Some b -> boards !! S i = Some b' ->
       filled_cells b ⊆ filled_cells b') /\
    ("A" <> " " -> "B" <> " " ->
     forall (i : nat) b b',
       boards !! i = Some b -> boards !! S i = Some b' ->
       filled_cells b ⊂ filled_cells b').
Proof.
  apply (move_replay_snapshots "A" "B" won_123).
  apply reachable_play_moves, reach_init.
Defined.

Example replay_123 :
  move_replay won_123 =
  ([ [["X"; " "; " "]; [" "; " "; " "]; [" "; " "; " "]; []];
     [["X"; " "; " "]; ["O"; " "; " "]; [" "; " "; " "]; []];
     [["X"; "X"; " "]; ["O"; " "; " "]; [" "; " "; " "]; []];
     [["X"; "X"; " "]; ["O"; "O"; " "]; [" "; " "; " "]; []];
     [["X"; "X"; "X"]; ["O"; "O"; " "]; [" "; " "; " "]; []] ], None).
Proof. vm_compute. reflexivity. Qed.

Lemma elem_find (m : OrderedDict.t) (k : Z) (v : string) :
  NoDup (OrderedDict.keys m) -> (k, v) ∈ m -> OrderedDict.find m k = Some v.
Proof.
  unfold OrderedDict.keys.
  induction m as [|[k' v'] m IH]; simpl; intros Hnd Hin.
  - now apply elem_of_nil in Hin.
  - apply NoDup_cons in Hnd as [Hk' Hnd].
    apply elem_of_cons in Hin as [[= -> ->]|Hin].
    + now rewrite Z.eqb_refl.
    + destruct (Z.eqb_spec k k') as [->|_]; [|now apply IH].
      exfalso. apply Hk'. apply (list_elem_of_fmap_2 fst) in Hin. exact Hin.
Qed.

(** C10. An empty dictionary given to [compile_board] is treated as no
    argument, and the grid returned is that of the current board: cell by
    cell it shows the token of the name recorded there, or of the blank for a
    free cell. So a cell taken by the second player shows O, a cell taken by
    a first player of another name shows X, and a free cell shows the
    empty-cell token when no player is called by the blank. With at least
    one move made the grid is not the grid of nine empty-cell tokens. *)
Theorem compile_board_empty_mapping (player1 player2 : string) (s : State) :
  reachable player1 player2 s ->
  compile_board s (Some OrderedDict.empty) = compile_board s None /\
  compile_board s (Some OrderedDict.empty) =
    Return (render player1 player2 (moves s)) /\
  (forall p, 1 <= p <= 9 ->
     cell (render player1 player2 (moves s)) p =
     Some (token_of player1 player2 (OrderedDict.get (moves s) p " "))) /\
  (forall k v, (k, v) ∈ moves s ->
     cell (render player1 player2 (moves s)) k =
       Some (token_of player1 player2 v) /\
     (token_of player1 player2 v = "X" \/ token_of player1 player2 v = "O") /\
     (v = player2 -> token_of player1 player2 v = "O") /\
     (v = player1 -> player1 <> player2 -> token_of player1 player2 v = "X")) /\
  (player1 <> " " -> player2 <> " " ->
   forall p, 1 <= p <= 9 -> p ∉ OrderedDict.keys (moves s) ->
     cell (render player1 player2 (moves s)) p = Some " ") /\
  (moves s <> [] ->
   render player1 player2 (moves s) <> blank_grid /\
   filled_cells (render player1 player2 (moves s)) <> []).
Proof.
  intros Hi%reachable_inv.
  pose proof (inv_owners _ _ _ Hi) as Hown.
  pose proof (inv_cells _ _ _ Hi) as Hce.
  pose proof (inv_nodup _ _ _ Hi) as Hnd.
  rewrite Forall_forall in Hce. rewrite Forall_forall in Hown.
  assert (Hin : forall k v, (k, v) ∈ moves s -> 1 <= k <= 9).
  { intros k v Hkv. apply (Hce k).
    apply (list_elem_of_fmap_2 fst) in Hkv. exact Hkv. }
  split; [reflexivity|].
  split; [apply (compile_board_render player1 player2 s (Some []) Hi),
            (inv_owners _ _ _ Hi)|].
  split; [intros p Hp; now apply cell_render|].
  split; [|split].
  - intros k v Hkv. rewrite cell_render by (eapply Hin, Hkv).
    unfold OrderedDict.get. rewrite (elem_find _ _ _ Hnd Hkv).
    split; [reflexivity|].
    split; [apply token_of_player, (Hown (k, v) Hkv)|].
    unfold token_of. split.
    + intros ->. now rewrite decide_True.
    + intros -> Hne. rewrite decide_False by assumption.
      now rewrite decide_True.
  - intros H1 H2 p Hp Hfree. rewrite cell_render by assumption.
    apply find_None_keys in Hfree. unfold OrderedDict.get. rewrite Hfree.
    now rewrite token_of_blank.
  - intros Hne.
    assert (Hfilled : filled_cells (render player1 player2 (moves s)) <> []).
    { destruct (moves s) as [|[k v] m] eqn:Hm; [congruence|].
      assert (Hk : k ∈ filled_cells (render player1 player2 ((k, v) :: m))).
      { apply elem_of_filled_cells. split.
        - apply (Hin k v), list_elem_of_here.
        - apply is_filled_moved.
          + rewrite <- Hm. apply (inv_owners _ _ _ Hi).
          + apply (Hin k v), list_elem_of_here.
          + unfold OrderedDict.contains. simpl. now rewrite Z.eqb_refl. }
      intros Heq. rewrite Heq in Hk. now apply elem_of_nil in Hk. }
    split; [|assumption].
    intros Heq. apply Hfilled. rewrite Heq. reflexivity.
Qed.

Lemma compile_board_empty_mapping_witness :
  compile_board won_123 (Some OrderedDict.empty) =
    compile_board won_123 None /\
  compile_board won_123 (Some OrderedDict.empty) =
    Return (render "A" "B" (moves won_123)) /\
  (forall p, 1 <= p <= 9 ->
     cell (render "A" "B" (moves won_123)) p =
     Some (token_of "A" "B" (OrderedDict.get (moves won_123) p " "))) /\
  (forall k v, (k, v) ∈ moves won_123 ->
     cell (render "A" "B" (moves won_123)) k = Some (token_of "A" "B" v) /\
     (token_of "A" "B" v = "X" \/ token_of "A" "B" v = "O") /\
     (v = "B" -> token_of "A" "B" v = "O") /\
     (v = "A" -> "A" <> "B" -> token_of "A" "B" v = "X")) /\
  ("A" <> " " -> "B" <> " " ->
   forall p, 1 <= p <= 9 -> p ∉ OrderedDict.keys (moves won_123) ->
     cell (render "A" "B" (moves won_123)) p = Some " ") /\
  (moves won_123 <> [] ->
   render "A" "B" (moves won_123) <> blank_grid /\
   filled_cells (render "A" "B" (moves won_123)) <> []).
Proof.
  apply (compile_board_empty_mapping "A" "B" won_123).
  apply reachable_play_moves, reach_init.
Defined.

Example empty_mapping_123 :
  compile_board won_123 (Some OrderedDict.empty) =
  Return [["X"; "X"; "X"]; ["O"; "O"; " "]; [" "; " "; " "]; []].
Proof. vm_compute. reflexivity. Qed.

(** ** Further properties: the board *)

Lemma keys_within_cells (m : OrderedDict.t) :
  NoDup (OrderedDict.keys m) ->
  Forall (fun k => 1 <= k <= 9) (OrderedDict.keys m) ->
  OrderedDict.keys m ⊆+ range_from 1 9.
Proof.
  intros Hnd Hr. apply NoDup_submseteq; [assumption|].
  intros x Hx. rewrite Forall_forall in Hr. specialize (Hr x Hx).
  apply range_from_spec. simpl in Hr |- *. lia.
Qed.

Lemma keys_length (m : OrderedDict.t) :
  length (OrderedDict.keys m) = length m.
Proof. apply length_fmap. Qed.

(** X1. In every state of a game no cell is recorded twice, every recorded
    cell is one of 1..9 and was taken by one of the two players, and at most
    nine moves are recorded. *)
Theorem moves_well_formed (player1 player2 : string) (s : State) :
  reachable player1 player2 s ->
  NoDup (OrderedDict.keys (moves s)) /\
  (forall k v, (k, v) ∈ moves s -> 1 <= k <= 9 /\ is_player player1 player2 v) /\
  (length (moves s) <= 9)%nat.
Proof.
  intros Hi%reachable_inv.
  pose proof (inv_nodup _ _ _ Hi) as Hnd.
  pose proof (inv_cells _ _ _ Hi) as Hce.
  pose proof (inv_owners _ _ _ Hi) as Hown.
  split; [assumption|]. split.
  - intros k v Hkv. rewrite Forall_forall in Hce.
    rewrite Forall_forall in Hown. split.
    + apply (Hce k). apply (list_elem_of_fmap_2 fst) in Hkv. exact Hkv.
    + apply (Hown (k, v) Hkv).
  - rewrite <- keys_length.
    apply (submseteq_length _ _ (keys_within_cells _ Hnd Hce)).
Qed.

Lemma moves_well_formed_witness :
  NoDup (OrderedDict.keys (moves drawn)) /\
  (forall k v, (k, v) ∈ moves drawn -> 1 <= k <= 9 /\ is_player "A" "B" v) /\
  (length (moves drawn) <= 9)%nat.
Proof.
  apply (moves_well_formed "A" "B" drawn).
  apply reachable_play_moves, reach_init.
Defined.

(** X2. A cell just taken cannot be taken again: after a successful
    [set_move p], a second [set_move p] raises [DuplicateMoveException] and
    changes nothing. *)
Theorem set_move_same_cell_twice (s : State) (p : Z) :
  (set_move p s).1 = Return tt ->
  set_move p (set_move p s).2 =
  (Raise DuplicateMoveException, (set_move p s).2).
Proof.
  destruct (set_move_cases p s) as [[_ ->]|[(_ & _ & ->)|(Hr & _ & ->)]];
    simpl; try discriminate.
  intros _. apply set_move_duplicate; [assumption|]. simpl.
  apply contains_keys. rewrite keys_app, elem_of_app. right.
  apply list_elem_of_here.
Qed.

Lemma set_move_same_cell_twice_witness :
  set_move 5 (set_move 5 (init "A" "B" true)).2 =
  (Raise DuplicateMoveException, (set_move 5 (init "A" "B" true)).2).
Proof.
  apply (set_move_same_cell_twice (init "A" "B" true) 5). reflexivity.
Defined.

(** X3. Once nine moves are recorded no move is accepted: every [set_move]
    raises, and the state stays as it is. *)
Theorem full_board_rejects_moves
    (player1 player2 : string) (s : State) (p : Z) :
  reachable player1 player2 s ->
  length (moves s) = 9%nat ->
  (set_move p s = (Raise IllegalMoveException, s) /\ ~ 1 <= p <= 9) \/
  (set_move p s = (Raise DuplicateMoveException, s) /\ 1 <= p <= 9).
Proof.
  intros Hi%reachable_inv Hlen.
  pose proof (keys_within_cells _ (inv_nodup _ _ _ Hi) (inv_cells _ _ _ Hi))
    as Hsub.
  apply submseteq_length_Permutation in Hsub;
    [|rewrite keys_length, Hlen; simpl; lia].
  destruct (in_range 1 10 p) eqn:Hr.
  - right. pose proof Hr as Hr'. apply in_range_spec in Hr'.
    split; [|lia]. apply set_move_duplicate; [assumption|].
    apply contains_keys. rewrite Hsub. apply range_from_spec. simpl. lia.
  - left. split; [now apply set_move_illegal|].
    intros Hp. assert (in_range 1 10 p = true) by (apply in_range_spec; lia).
    congruence.
Qed.

Lemma full_board_rejects_moves_witness :
  (set_move 5 drawn = (Raise IllegalMoveException, drawn) /\ ~ 1 <= 5 <= 9) \/
  (set_move 5 drawn = (Raise DuplicateMoveException, drawn) /\ 1 <= 5 <= 9).
Proof.
  apply (full_board_rejects_moves "A" "B" drawn 5).
  - apply reachable_play_moves, reach_init.
  - vm_compute. reflexivity.
Defined.

(** X4. Whether it succeeds or raises, [set_move] leaves the score, the
    winner, the players and the tokens alone, and keeps every move already
    recorded, in order, adding at most one after them. *)
Theorem set_move_frame (s : State) (p : Z) :
  score (set_move p s).2 = score s /\
  winner (set_move p s).2 = winner s /\
  players (set_move p s).2 = players s /\
  tokens (set_move p s).2 = tokens s /\
  exists added,
    moves (set_move p s).2 = moves s ++ added /\ (length added <= 1)%nat.
Proof.
  destruct (set_move_cases p s) as [[_ ->]|[(_ & _ & ->)|(_ & _ & ->)]];
    simpl; repeat split; try reflexivity.
  - exists []. rewrite app_nil_r. split; [reflexivity | simpl; lia].
  - exists []. rewrite app_nil_r. split; [reflexivity | simpl; lia].
  - exists [(p, turn s)]. split; [reflexivity | simpl; lia].
Qed.

(** ** Further properties: [finished] *)

(** X5. On a state of a game [finished] does not raise; it leaves the moves,
    the turn, the players and the tokens alone; no score entry disappears or
    decreases; and when no line passes its test it changes nothing at all. *)
Theorem finished_frame (player1 player2 : string) (s : State) :
  reachable player1 player2 s ->
  (exists b, (finished s).1 = Return b) /\
  moves (finished s).2 = moves s /\
  turn (finished s).2 = turn s /\
  players (finished s).2 = players s /\
  tokens (finished s).2 = tokens s /\
  (forall q n, score s !! q = Some n ->
     exists n', score (finished s).2 !! q = Some n' /\ n <= n') /\
  (count_won (moves s) win_lines = 0 -> (finished s).2 = s).
Proof.
  intros Hi%reachable_inv.
  destruct (finished_run _ _ s Hi)
    as [[Hz ->]|(k & w & n & Hnz & _ & _ & Hn & ->)];
    unfold record_win; cbn [fst snd moves turn players tokens score].
  - repeat split; eauto. intros q n Hq. exists n. split; [assumption | lia].
  - repeat split; eauto; [|contradiction].
    intros q n' Hq. rewrite lookup_insert. case_decide as Hwq.
    + subst q. rewrite Hn in Hq. injection Hq as <-.
      eexists. split; [reflexivity|].
      pose proof (count_won_nonneg (moves s) win_lines). lia.
    + exists n'. split; [assumption | lia].
Qed.

Lemma finished_frame_witness :
  (exists b, (finished two_lines).1 = Return b) /\
  moves (finished two_lines).2 = moves two_lines /\
  turn (finished two_lines).2 = turn two_lines /\
  players (finished two_lines).2 = players two_lines /\
  tokens (finished two_lines).2 = tokens two_lines /\
  (forall q n, score two_lines !! q = Some n ->
     exists n', score (finished two_lines).2 !! q = Some n' /\ n <= n') /\
  (count_won (moves two_lines) win_lines = 0 ->
   (finished two_lines).2 = two_lines).
Proof.
  apply (finished_frame "A" "B" two_lines).
  apply reachable_play_moves, reach_init.
Defined.

Lemma line_complete_won (m : OrderedDict.t) (l : Z * Z * Z) :
  Forall (fun kv => kv.2 <> "") m ->
  line_complete m l -> line_won m l = true.
Proof.
  destruct l as [[a b] c]. intros Hne [q Hq].
  apply line_won_owner. exists q. split; [|exact Hq].
  destruct Hq as [Ha _]. rewrite Forall_forall in Hne.
  apply (Hne (a, q)), find_Some_elem, Ha.
Qed.

Lemma full_length_board_full (m : OrderedDict.t) :
  NoDup (OrderedDict.keys m) ->
  Forall (fun k => 1 <= k <= 9) (OrderedDict.keys m) ->
  length m = 9%nat -> board_full m.
Proof.
  intros Hnd Hce Hlen p Hp.
  pose proof (keys_within_cells _ Hnd Hce) as Hsub.
  apply submseteq_length_Permutation in Hsub;
    [|rewrite keys_length, Hlen; simpl; lia].
  rewrite Hsub. apply range_from_spec. simpl. lia.
Qed.

Lemma named_owners (player1 player2 : string) (m : OrderedDict.t) :
  player1 <> "" -> player2 <> "" ->
  Forall (fun kv => is_player player1 player2 kv.2) m ->
  Forall (fun kv => kv.2 <> "") m.
Proof.
  intros H1 H2 Hf. eapply Forall_impl; [exact Hf|].
  intros [k v] [Hv|Hv]; simpl in *; congruence.
Qed.

Lemma truthy_named (w : string) : w <> "" -> truthy w = true.
Proof. intros H. unfold truthy. now apply negb_true_iff, String.eqb_neq. Qed.

(** X6. In a game whose players both have a name, [finished] returns true
    exactly when some line is complete or the nine cells are filled, and
    false otherwise. *)
Theorem finished_true_iff (player1 player2 : string) (s : State) :
  reachable player1 player2 s ->
  player1 <> "" -> player2 <> "" ->
  ((finished s).1 = Return true <->
   (exists l, l ∈ win_lines /\ line_complete (moves s) l) \/
   board_full (moves s)) /\
  ((finished s).1 = Return true \/ (finished s).1 = Return false).
Proof.
  intros Hi%reachable_inv H1 H2.
  pose proof (inv_nodup _ _ _ Hi) as Hnd.
  pose proof (inv_cells _ _ _ Hi) as Hce.
  pose proof (named_owners _ _ _ H1 H2 (inv_owners _ _ _ Hi)) as Hne.
  destruct (finished_run _ _ s Hi)
    as [[Hz ->]|(k & w & n & Hnz & _ & Hpl & _ & ->)]; simpl.
  - assert (Hnone : winner s = None).
    { destruct (winner s) as [w|] eqn:Hw; [|reflexivity].
      destruct (inv_winner _ _ _ Hi w Hw) as (_ & l & Hl & Hlw).
      rewrite count_won_zero in Hz. rewrite (Hz l Hl) in Hlw. discriminate. }
    unfold finished_result. rewrite Hnone. simpl.
    destruct (Z.eqb_spec (Z.of_nat (length (moves s))) 9) as [Hlen|Hlen].
    + split; [|now left]. split; [|reflexivity].
      intros _. right. apply full_length_board_full; try assumption. lia.
    + split; [|now right]. split; [discriminate|].
      intros [(l & Hl & Hc)|Hfull]; exfalso.
      * rewrite count_won_zero in Hz.
        specialize (Hz l Hl).
        rewrite (line_complete_won _ _ Hne Hc) in Hz. discriminate.
      * apply Hlen. rewrite (board_full_length _ Hnd Hce Hfull). reflexivity.
  - rewrite truthy_named by (destruct Hpl; congruence). simpl.
    split; [|now left]. split; [|reflexivity].
    intros _. left. destruct (count_won_exists _ _ Hnz) as (l & Hl & Hw).
    exists l. split; [assumption | now apply line_won_complete].
Qed.

Lemma finished_true_iff_witness :
  ((finished won_123).1 = Return true <->
   (exists l, l ∈ win_lines /\ line_complete (moves won_123) l) \/
   board_full (moves won_123)) /\
  ((finished won_123).1 = Return true \/ (finished won_123).1 = Return false).
Proof.
  apply (finished_true_iff "A" "B" won_123).
  - apply reachable_play_moves, reach_init.
  - discriminate.
  - discriminate.
Defined.

(** X7. A player whose name is the empty string wins no line: when every
    complete line is held by the empty name, [finished] changes nothing and
    answers from the winner already recorded and the number of moves. *)
Theorem finished_misses_unnamed_player (s : State) :
  (forall l q, l ∈ win_lines -> owns_line (moves s) q l -> q = "") ->
  finished s =
  (Return (truthy_opt (winner s) || (Z.of_nat (length (moves s)) =? 9)), s).
Proof.
  intros Hall. apply finished_no_line, count_won_zero.
  intros [[a b] c] Hl.
  destruct (line_won (moves s) (a, b, c)) eqn:Hw; [|reflexivity].
  apply line_won_owner in Hw as (q & Hq & Ho).
  now rewrite (Hall (a, b, c) q Hl Ho) in Hq.
Qed.

Lemma finished_misses_unnamed_player_witness :
  owns_line (moves unnamed_top_row) "" (1, 2, 3) /\
  finished unnamed_top_row = (Return false, unnamed_top_row).
Proof.
  split; [vm_compute; repeat split|].
  rewrite (finished_misses_unnamed_player unnamed_top_row).
  - vm_compute. reflexivity.
  - intros l q Hl Ho.
    repeat (apply elem_of_cons in Hl as [->|Hl];
            [vm_compute in Ho; destruct Ho as (Ha & Hb & Hc); congruence|]).
    now apply elem_of_nil in Hl.
Defined.

Lemma check_lines_missing_score (ls : list (Z * Z * Z)) (s : State)
    (k : Z) (w : string) :
  count_won (moves s) ls <> 0 ->
  last (moves s) = Some (k, w) ->
  OrderedDict.find (moves s) k = Some w ->
  score s !! w = None ->
  for_each ls check_line s = (Raise KeyError, with_winner (Some w) s).
Proof.
  intros Hnz Hlast Hf Hs.
  induction ls as [|l ls IH]; simpl in *; [congruence|].
  unfold bind at 1.
  destruct (line_won (moves s) l) eqn:Hw.
  - unfold check_line, bind, read, lift, update, bump_score, bind, read,
      raise, OrderedDict.last_key, OrderedDict.getitem.
    rewrite Hw, Hlast, Hf. simpl. now rewrite Hs.
  - rewrite (check_line_miss l s Hw). apply IH. lia.
Qed.

(** X8. The winner is assigned before the score is read: when a line passes
    the test and the score has no entry for the player of the last move,
    [finished] raises [KeyError] with that player already recorded as the
    winner, and nothing else changed. *)
Theorem finished_missing_score (s : State) (k : Z) (w : string) :
  count_won (moves s) win_lines <> 0 ->
  last (moves s) = Some (k, w) ->
  OrderedDict.find (moves s) k = Some w ->
  score s !! w = None ->
  finished s = (Raise KeyError, with_winner (Some w) s).
Proof.
  intros Hnz Hlast Hf Hs. unfold finished, bind at 1.
  now rewrite (check_lines_missing_score win_lines s k w Hnz Hlast Hf Hs).
Qed.

Lemma finished_missing_score_witness :
  finished no_score_entry =
  (Raise KeyError, with_winner (Some "A") no_score_entry).
Proof.
  apply (finished_missing_score no_score_entry 3 "A").
  - vm_compute. discriminate.
  - reflexivity.
  - reflexivity.
  - reflexivity.
Defined.

(** X9. [_set_winner] for a name with no score entry raises [KeyError] and
    changes nothing, the winner included; for a name with an entry it adds
    exactly one to that entry, leaves the other entries and the board alone,
    and records the name as the winner. *)
Theorem _set_winner_outcome (s : State) (w : string) :
  (score s !! w = None -> _set_winner w s = (Raise KeyError, s)) /\
  (forall n, score s !! w = Some n ->
     (_set_winner w s).1 = Return tt /\
     winner (_set_winner w s).2 = Some w /\
     score (_set_winner w s).2 !! w = Some (n + 1) /\
     (forall q, q <> w -> score (_set_winner w s).2 !! q = score s !! q) /\
     moves (_set_winner w s).2 = moves s /\
     turn (_set_winner w s).2 = turn s).
Proof.
  unfold _set_winner, bump_score, bind, read, update, raise. split.
  - intros ->. reflexivity.
  - intros n ->. simpl. rewrite lookup_insert_eq. repeat split.
    intros q Hq. now rewrite lookup_insert_ne.
Qed.

(** ** Further properties: [compile_board] and what is printed *)

Ltac compile_step i H :=
  destruct (tokens _ !! OrderedDict.get _ i " ") eqn:H;
  [cbn | right; split; [reflexivity | exists i; split; [lia | exact H]]].

Lemma compile_board_outcome (s : State) (arg : option OrderedDict.t) :
  (exists b, compile_board s arg = Return b /\
     forall p, 1 <= p <= 9 ->
       is_Some (tokens s !! OrderedDict.get (shown_moves s arg) p " ")) \/
  (compile_board s arg = Raise KeyError /\
   exists p, 1 <= p <= 9 /\
     tokens s !! OrderedDict.get (shown_moves s arg) p " " = None).
Proof.
  unfold compile_board.
  change (range_from 1 9) with [1; 2; 3; 4; 5; 6; 7; 8; 9].
  cbn [compile_loop].
  compile_step 1 H1. compile_step 2 H2. compile_step 3 H3.
  compile_step 4 H4. compile_step 5 H5. compile_step 6 H6.
  compile_step 7 H7. compile_step 8 H8. compile_step 9 H9.
  left. eexists. split; [reflexivity|].
  intros p Hp.
  assert (Hc : p = 1 \/ p = 2 \/ p = 3 \/ p = 4 \/ p = 5 \/ p = 6 \/
               p = 7 \/ p = 8 \/ p = 9) by lia.
  repeat (destruct Hc as [->|Hc]; [eauto|]). subst. eauto.
Qed.

(** X10. [compile_board] raises nothing but [KeyError], and raises it exactly
    when the name found at one of the cells 1..9 of the moves it shows (the
    blank for a free cell) has no token; entries for other cells are never
    looked at. *)
Theorem compile_board_raises_iff (s : State) (arg : option OrderedDict.t) :
  (compile_board s arg = Raise KeyError <->
   exists p, 1 <= p <= 9 /\
     tokens s !! OrderedDict.get (shown_moves s arg) p " " = None) /\
  ((exists b, compile_board s arg = Return b) \/
   compile_board s arg = Raise KeyError).
Proof.
  destruct (compile_board_outcome s arg)
    as [(b & Hb & Hall)|(Hraise & p & Hp & Hnone)].
  - split; [|eauto]. rewrite Hb. split; [discriminate|].
    intros (p & Hp & Hnone). destruct (Hall p Hp) as [t Ht]. congruence.
  - split; [|auto]. split; [eauto | auto].
Qed.

(** X11. After [reset], in a game whose players are not called by the blank,
    [compile_board] shows nine empty cells. *)
Theorem compile_board_after_reset
    (player1 player2 : string) (s : State) (pick : bool) :
  reachable player1 player2 s ->
  player1 <> " " -> player2 <> " " ->
  compile_board (reset pick s).2 None =
  Return [ [" "; " "; " "]; [" "; " "; " "]; [" "; " "; " "]; [] ].
Proof.
  intros Hi%reachable_inv H1 H2.
  rewrite (compile_board_current player1 player2) by now apply inv_reset.
  rewrite reset_run. unfold render, OrderedDict.get. simpl.
  now rewrite (token_of_blank _ _ H1 H2).
Qed.

Lemma compile_board_after_reset_witness :
  compile_board (reset true (finished won_123).2).2 None =
  Return [ [" "; " "; " "]; [" "; " "; " "]; [" "; " "; " "]; [] ].
Proof.
  apply (compile_board_after_reset "A" "B").
  - apply reach_finished, reachable_play_moves, reach_init.
  - discriminate.
  - discriminate.
Defined.

(** X12. In a game of two differently named players, neither called by the
    blank, the grid of [compile_board] shows X exactly at the cells of the
    first player, O exactly at the cells of the second, and the empty-cell
    token exactly at the free cells. *)
Theorem compile_board_marks (player1 player2 : string) (s : State) :
  reachable player1 player2 s ->
  player1 <> player2 -> player1 <> " " -> player2 <> " " ->
  exists b,
    compile_board s None = Return b /\
    forall p, 1 <= p <= 9 ->
      (cell b p = Some "X" <-> OrderedDict.find (moves s) p = Some player1) /\
      (cell b p = Some "O" <-> OrderedDict.find (moves s) p = Some player2) /\
      (cell b p = Some " " <-> OrderedDict.find (moves s) p = None).
Proof.
  intros Hi%reachable_inv Hne H1 H2.
  exists (render player1 player2 (moves s)).
  split; [now apply compile_board_current|].
  intros p Hp. rewrite cell_render by assumption.
  unfold OrderedDict.get.
  destruct (OrderedDict.find (moves s) p) as [v|] eqn:Hf.
  - pose proof (inv_owners _ _ _ Hi) as Hown. rewrite Forall_forall in Hown.
    assert (Hv : is_player player1 player2 v)
      by apply (Hown (p, v)), find_Some_elem, Hf.
    unfold token_of.
    destruct Hv as [->| ->].
    + rewrite decide_False by assumption. rewrite decide_True by reflexivity.
      repeat split; intros; (reflexivity || congruence || discriminate).
    + rewrite decide_True by reflexivity.
      repeat split; intros; (reflexivity || congruence || discriminate).
  - rewrite (token_of_blank _ _ H1 H2).
    repeat split; intros; (reflexivity || discriminate).
Qed.

Lemma compile_board_marks_witness :
  exists b,
    compile_board won_123 None = Return b /\
    forall p, 1 <= p <= 9 ->
      (cell b p = Some "X" <-> OrderedDict.find (moves won_123) p = Some "A") /\
      (cell b p = Some "O" <-> OrderedDict.find (moves won_123) p = Some "B") /\
      (cell b p = Some " " <-> OrderedDict.find (moves won_123) p = None).
Proof.
  apply (compile_board_marks "A" "B" won_123).
  - apply reachable_play_moves, reach_init.
  - discriminate.
  - discriminate.
  - discriminate.
Defined.




Example show_board_123 :
  match compile_board won_123 None with
  | Return b => show_board b
  | Raise _ => []
  end = ["X|X|X"; "O|O| "; " | | "; ""].
Proof. vm_compute. reflexivity. Qed.

Lemma show_replay_length (player1 player2 : string)
    (ms : list OrderedDict.t) :
  length (List.concat (show_board <$> (render player1 player2 <$> ms))) =
  (4 * length ms)%nat.
Proof.
  induction ms as [|m ms IH]; [reflexivity|].
  cbn [fmap list_fmap List.concat]. rewrite length_app.
  change (list_fmap _ _ (render player1 player2) ms)
    with (render player1 player2 <$> ms).
  change (list_fmap _ _ show_board (render player1 player2 <$> ms))
    with (show_board <$> (render player1 player2 <$> ms)).
  rewrite IH. simpl. lia.
Qed.

(** X14. On a state of a game [show_replay] runs to its end without raising
    and prints four lines for each move made: one grid per move. *)
Theorem show_replay_lines (player1 player2 : string) (s : State) :
  reachable player1 player2 s ->
  exists lines,
    show_replay s = (lines, None) /\
    length lines = (4 * length (moves s))%nat.
Proof.
  intros Hi%reachable_inv. unfold show_replay.
  rewrite (move_replay_run player1 player2 s Hi).
  eexists. split; [reflexivity|].
  now rewrite show_replay_length, prefixes_from_length.
Qed.

Lemma show_replay_lines_witness :
  exists lines,
    show_replay won_123 = (lines, None) /\
    length lines = (4 * length (moves won_123))%nat.
Proof.
  apply (show_replay_lines "A" "B" won_123).
  apply reachable_play_moves, reach_init.
Defined.

(** ** Further properties: the order of play *)

Lemma alternating_snoc (m : list (Z * string)) (x : Z * string) :
  alternating m ->
  (forall kv, last m = Some kv -> kv.2 <> x.2) ->
  alternating (m ++ [x]).
Proof.
  intros Ha Hl i kv kv' H1 H2.
  destruct (decide (S i < length m)%nat) as [Hlt|Hge].
  - rewrite lookup_app_l in H1 by lia. rewrite lookup_app_l in H2 by lia.
    now apply (Ha i).
  - pose proof (lookup_lt_Some _ _ _ H2) as Hb.
    rewrite length_app in Hb. simpl in Hb.
    assert (Hi : S i = length m) by lia.
    rewrite lookup_app_r in H2 by lia.
    replace (S i - length m)%nat with 0%nat in H2 by lia.
    injection H2 as <-.
    rewrite lookup_app_l in H1 by lia.
    apply Hl. rewrite last_lookup. rewrite <- Hi. exact H1.
Qed.

Section Alternation.

Variables player1 player2 : string.
Hypothesis names_differ : player1 <> player2.

Lemma reachable_alternating (s : State) :
  reachable player1 player2 s ->
  alternating (moves s) /\
  (forall kv, last (moves s) = Some kv -> kv.2 <> turn s).
Proof.
  induction 1 as [pick|s pick Hr IH|s p Hr IH|s Hr IH].
  - unfold init. rewrite reset_run. simpl. split; [|discriminate].
    intros i kv kv' H. destruct i; discriminate H.
  - rewrite reset_run. simpl. split; [|discriminate].
    intros i kv kv' H. destruct i; discriminate H.
  - destruct IH as [Ha Hl].
    pose proof (reachable_inv _ _ _ Hr) as Hi.
    destruct (set_move_cases p s) as [[_ ->]|[(_ & _ & ->)|(_ & _ & ->)]];
      simpl; try (split; assumption).
    destruct (next_turn_other _ _ s Hi names_differ) as [_ Hnext].
    split.
    + apply alternating_snoc; assumption.
    + intros kv. rewrite last_snoc. intros [= <-]. simpl. congruence.
  - destruct IH as [Ha Hl].
    pose proof (reachable_inv _ _ _ Hr) as Hi.
    destruct (finished_run _ _ s Hi)
      as [[_ ->]|(k & w & n & _ & _ & _ & _ & ->)]; simpl;
      split; assumption.
Qed.

End Alternation.

(** X15. In a game of two differently named players, consecutive moves are
    by different players, the player to move is not the one who moved last,
    and a winner that [finished] has just recorded is not the player to
    move. *)
Theorem moves_alternate (player1 player2 : string) (s : State) :
  reachable player1 player2 s ->
  player1 <> player2 ->
  alternating (moves s) /\
  (forall w, last_mover (moves s) = Some w -> w <> turn s) /\
  (forall w, winner (finished s).2 = Some w -> w <> turn (finished s).2).
Proof.
  intros Hr Hne.
  destruct (reachable_alternating _ _ Hne s Hr) as [Ha Hl].
  pose proof (reachable_inv _ _ _ Hr) as Hi.
  split; [assumption|].
  assert (Hlm : forall w, last_mover (moves s) = Some w -> w <> turn s).
  { intros w. unfold last_mover.
    destruct (last (moves s)) as [[k w']|] eqn:Hlast; [|discriminate].
    intros [= <-]. apply (Hl (k, w') eq_refl). }
  split; [assumption|].
  intros w.
  destruct (finished_run _ _ s Hi)
    as [[Hz ->]|(k & w' & n & _ & Hlast & _ & _ & ->)]; simpl.
  - intros Hw. destruct (inv_winner _ _ _ Hi w Hw) as (_ & l & Hl' & Hlw).
    rewrite count_won_zero in Hz. rewrite (Hz l Hl') in Hlw. discriminate.
  - intros [= <-]. apply Hlm. unfold last_mover. now rewrite Hlast.
Qed.

Lemma moves_alternate_witness :
  alternating (moves won_123) /\
  (forall w, last_mover (moves won_123) = Some w -> w <> turn won_123) /\
  (forall w, winner (finished won_123).2 = Some w ->
             w <> turn (finished won_123).2).
Proof.
  apply (moves_alternate "A" "B" won_123).
  - apply reachable_play_moves, reach_init.
  - discriminate.
Defined.

(** ** Further properties: the score and the loop of [play] *)

Lemma reachable_score_nonneg (player1 player2 : string) (s : State) :
  reachable player1 player2 s ->
  forall q n, score s !! q = Some n -> 0 <= n.
Proof.
  induction 1 as [pick|s pick Hr IH|s p Hr IH|s Hr IH]; intros q n.
  - unfold init. rewrite reset_run. simpl.
    rewrite lookup_insert. case_decide; [intros [= <-]; lia|].
    rewrite lookup_insert. case_decide; [intros [= <-]; lia|].
    now rewrite lookup_empty.
  - rewrite reset_run. simpl. apply IH.
  - destruct (set_move_cases p s) as [[_ ->]|[(_ & _ & ->)|(_ & _ & ->)]];
      simpl; apply IH.
  - pose proof (reachable_inv _ _ _ Hr) as Hi.
    pose proof (count_won_nonneg (moves s) win_lines) as Hc.
    destruct (finished_run _ _ s Hi)
      as [[_ ->]|(k & w & m & _ & _ & _ & Hm & ->)]; [apply IH|].
    remember (count_won (moves s) win_lines) as c eqn:Ec. clear Ec.
    unfold record_win. cbn [snd score].
    rewrite lookup_insert. case_decide; [|apply IH].
    intros [= <-]. specialize (IH w m Hm). lia.
Qed.

(** X16. In every state of a game both [player1_score] and [player2_score]
    return a number, without raising, and it is never negative. *)
Theorem scores_defined_nonneg (player1 player2 : string) (s : State) :
  reachable player1 player2 s ->
  exists n1 n2,
    player1_score s = Return n1 /\ player2_score s = Return n2 /\
    0 <= n1 /\ 0 <= n2.
Proof.
  intros Hr. pose proof (reachable_inv _ _ _ Hr) as Hi.
  destruct (inv_score1 _ _ _ Hi) as [n1 H1].
  destruct (inv_score2 _ _ _ Hi) as [n2 H2].
  exists n1, n2. unfold player1_score, player2_score.
  rewrite (inv_players _ _ _ Hi). simpl. rewrite H1, H2.
  repeat split; eapply reachable_score_nonneg; eassumption.
Qed.

Lemma scores_defined_nonneg_witness :
  exists n1 n2,
    player1_score (finished two_lines).2 = Return n1 /\
    player2_score (finished two_lines).2 = Return n2 /\
    0 <= n1 /\ 0 <= n2.
Proof.
  apply (scores_defined_nonneg "A" "B").
  apply reach_finished, reachable_play_moves, reach_init.
Defined.

Lemma play_unfold (inputs : list Z) (s : State) :
  play inputs s =
  match finished s with
  | (Return false, s') =>
      match inputs with
      | [] => s'
      | p :: rest => play rest (set_move p s').2
      end
  | (_, s') => s'
  end.
Proof. destruct inputs; reflexivity. Qed.

Lemma last_move_owns_line (m : OrderedDict.t) (k : Z) (w : string)
    (l : Z * Z * Z) :
  NoDup (OrderedDict.keys m) ->
  last m = Some (k, w) ->
  line_won m l = true -> on_line k l -> owns_line m w l.
Proof.
  intros Hnd Hlast Hw Hon.
  pose proof (find_last _ _ _ Hnd Hlast) as Hk.
  destruct l as [[a b] c].
  apply line_won_owner in Hw as (q & _ & Ha & Hb & Hc).
  destruct Hon as [->|[->| ->]]; assert (q = w) as -> by congruence;
    now repeat split.
Qed.

Lemma in_play_set_move (s0 s : State) (p : Z) :
  in_play s0 s -> count_won (moves s) win_lines = 0 ->
  in_play s0 (set_move p s).2.
Proof.
  intros (Hw & Hs & Hm) Hz.
  destruct (set_move_cases p s) as [[_ ->]|[(_ & _ & ->)|(_ & _ & ->)]];
    simpl; try (repeat split; assumption).
  repeat split; try assumption. simpl.
  intros m k w Heq. apply app_inj_tail in Heq as [<- _]. exact Hz.
Qed.

Lemma play_win_outcome (s0 s : State) (k : Z) (w : string) (n : Z) :
  NoDup (OrderedDict.keys (moves s)) ->
  in_play s0 s ->
  count_won (moves s) win_lines <> 0 ->
  last (moves s) = Some (k, w) ->
  score s !! w = Some n ->
  play_outcome s0 (record_win w n (count_won (moves s) win_lines) s).
Proof.
  intros Hnd (Hw & Hs & Hm) Hnz Hlast Hn.
  destruct (count_won_exists _ _ Hnz) as (l & Hl & Hlw).
  pose proof (count_won_nonneg (moves s) win_lines) as Hc.
  pose proof Hlast as Hsplit. apply last_Some in Hsplit as [m Hsplit].
  pose proof (Hm m k w Hsplit) as Hzm. rewrite count_won_zero in Hzm.
  assert (Hown : owns_line (moves s) w l).
  { apply (last_move_owns_line _ k w l Hnd Hlast Hlw).
    rewrite Hsplit in Hlw.
    apply (line_won_last_move m k w l Hlw (Hzm l Hl)). }
  remember (count_won (moves s) win_lines) as c eqn:Ec.
  unfold play_outcome.
  change (moves (record_win w n c s)) with (moves s).
  change (winner (record_win w n c s)) with (Some w).
  change (score (record_win w n c s)) with (<[w := n + c]> (score s)).
  rewrite <- Ec. clear Ec.
  split; [discriminate|]. intros w' Heq.
  assert (w' = w) as -> by congruence.
  exists l, n. split; [assumption|]. split; [assumption|].
  split; [now rewrite <- Hs|]. split; [apply lookup_insert_eq|].
  split; [lia|].
  intros q Hq. rewrite lookup_insert_ne by congruence. now rewrite Hs.
Qed.

Section Play.

Variables player1 player2 : string.
Hypothesis named1 : player1 <> "".
Hypothesis named2 : player2 <> "".

Lemma play_run (s0 : State) (inputs : list Z) :
  forall s, inv player1 player2 s -> in_play s0 s ->
            play_outcome s0 (play inputs s).
Proof.
  induction inputs as [|p rest IH]; intros s Hi Hp;
    rewrite play_unfold;
    destruct (finished_run _ _ s Hi)
      as [[Hz ->]|(k & w & n & Hnz & Hlast & Hpl & Hn & ->)].
  - destruct Hp as (Hw & Hs & Hm).
    destruct (finished_result s);
      (split; [intros _; exact Hs | intros w'; rewrite Hw; discriminate]).
  - rewrite truthy_named by (destruct Hpl; congruence).
    apply (play_win_outcome s0 s k w n); try assumption.
    apply (inv_nodup _ _ _ Hi).
  - destruct (finished_result s).
    + destruct Hp as (Hw & Hs & Hm).
      split; [intros _; exact Hs | intros w'; rewrite Hw; discriminate].
    + apply IH; [now apply inv_set_move|].
      now apply in_play_set_move.
  - rewrite truthy_named by (destruct Hpl; congruence).
    apply (play_win_outcome s0 s k w n); try assumption.
    apply (inv_nodup _ _ _ Hi).
Qed.

End Play.

(** X17. A game played through the loop of [play], from a state of a game
    with no move and no winner, by players who both have a name: if the loop
    ends with no winner recorded the score is unchanged; if it ends with a
    winner, the winner holds a complete line, the entry of the winner grew
    by the number of complete lines (at least one), and the other entry did
    not change. *)
Theorem play_result (player1 player2 : string) (s0 : State)
    (inputs : list Z) :
  reachable player1 player2 s0 ->
  player1 <> "" -> player2 <> "" ->
  moves s0 = [] -> winner s0 = None ->
  play_outcome s0 (play inputs s0).
Proof.
  intros Hi%reachable_inv H1 H2 Hm Hw.
  apply (play_run player1 player2 H1 H2 s0 inputs s0 Hi).
  repeat split; try assumption.
  intros m k w Heq. rewrite Hm in Heq.
  now apply app_cons_not_nil in Heq.
Qed.

Lemma play_result_witness :
  play_outcome (init "A" "B" false)
    (play two_lines_inputs (init "A" "B" false)).
Proof.
  apply (play_result "A" "B" (init "A" "B" false) two_lines_inputs).
  - apply reach_init.
  - discriminate.
  - discriminate.
  - reflexivity.
  - reflexivity.
Defined.
